(** * Resize generator (apps/resize/resize_generator.cpp)

    A shallow embedding of the Halide resize pipeline over the real
    numbers: every [Func] of the generator becomes a Rocq function of its
    pure variables, every reduction [sum] over [RDom r(0, kernel_taps)]
    becomes a finite sum over [0, kernel_taps), and [select] becomes a
    decided comparison on [R]. *)

From Stdlib Require Import ZArith Reals Lra Lia Psatz String.

Open Scope R_scope.

(** ** Helpers: integer rounding of reals, finite sums, clamping *)

(** [floor] through the Archimedean [up] (the least integer above [r]). *)
Definition Rfloor (r : R) : Z := (up r - 1)%Z.

(** Halide's [ceil], followed by [cast<int>]; exact on reals. *)
Definition Rceil (r : R) : Z := (- Rfloor (- r))%Z.

(** [sum(f(r))] over [RDom r(0, n)]: [f 0 + f 1 + ... + f (n-1)]. *)
Fixpoint sum_rdom (n : nat) (f : Z -> R) : R :=
  match n with
  | O => 0
  | S m => sum_rdom m f + f (Z.of_nat m)
  end.

Definition sum_taps (n : Z) (f : Z -> R) : R := sum_rdom (Z.to_nat n) f.

(** Halide [clamp(v, lo, hi)] on floats: [max(min(v, hi), lo)]. *)
Definition clampR (v lo hi : R) : R := Rmax (Rmin v hi) lo.

(** ** Kernel library *)

Inductive InterpolationType := Box | Linear | Cubic | Lanczos.

Definition kernel_box (x : R) : R :=
  let xx := Rabs x in
  if Rle_dec xx (1/2) then 1 else 0.

Definition kernel_linear (x : R) : R :=
  let xx := Rabs x in
  if Rlt_dec xx 1 then 1 - xx else 0.

Definition kernel_cubic (x : R) : R :=
  let xx := Rabs x in
  let xx2 := xx * xx in
  let xx3 := xx2 * xx in
  let a := (-1/2) in
  if Rlt_dec xx 1 then (a + 2) * xx3 - (a + 3) * xx2 + 1
  else if Rlt_dec xx 2 then a * xx3 - 5 * a * xx2 + 8 * a * xx - 4 * a
  else 0.

Definition sinc (x : R) : R := sin (PI * x) / x.

Definition kernel_lanczos (x : R) : R :=
  let value := sinc x * sinc (x / 3) in
  let value := if Req_dec_T x 0 then 1 else value in
  let value := if Rlt_dec 3 x then 0 else if Rlt_dec x (-3) then 0 else value in
  value.

Record KernelInfo := { name : string; taps : Z; kernel : R -> R }.

Definition kernel_info (t : InterpolationType) : KernelInfo :=
  match t with
  | Box => {| name := "box"; taps := 1; kernel := kernel_box |}
  | Linear => {| name := "linear"; taps := 2; kernel := kernel_linear |}
  | Cubic => {| name := "cubic"; taps := 4; kernel := kernel_cubic |}
  | Lanczos => {| name := "lanczos"; taps := 6; kernel := kernel_lanczos |}
  end.

(** ** Input buffer and boundary handler *)

(** A 3-D float buffer: the origin and extent of the two spatial
    dimensions, and the samples. *)
Record Buffer := {
  x_min : Z; x_extent : Z;
  y_min : Z; y_extent : Z;
  data : Z -> Z -> Z -> R }.

(** Modelled from the spec: Halide's [BoundaryConditions::repeat_edge]
    (library code, not under src/), as §4.2 describes it: each listed
    dimension is clamped into [min, min + extent - 1] with Halide's integer
    [clamp(v, lo, hi) = max(min(v, hi), lo)]; the channel is untouched. *)
Definition repeat_edge_coord (lo ext v : Z) : Z :=
  Z.max (Z.min v (lo + ext - 1)) lo.

Definition clamped (input : Buffer) (x y c : Z) : R :=
  data input (repeat_edge_coord (x_min input) (x_extent input) x)
             (repeat_edge_coord (y_min input) (y_extent input) y) c.

(** ** The generator's parameters: [interpolation_type] and [upsample]
    are generator parameters, [scale_factor] is a scalar input. *)

Record Resize := {
  interpolation_type : InterpolationType;
  upsample : bool;
  scale_factor : R }.

(** ** Kernel weight generator (one axis; [kernel_x] and [kernel_y] are
    this same table evaluated at [x] resp. [y]) *)

Section Generator.

Variable g : Resize.

Definition info : KernelInfo := kernel_info (interpolation_type g).

Definition kernel_scaling : R := if upsample g then 1 else scale_factor g.

Definition kernel_radius : R := (1/2) * IZR (taps info) / kernel_scaling.

Definition kernel_taps : Z := Rceil (IZR (taps info) / kernel_scaling).

Definition source (x : Z) : R := (IZR x + (1/2)) / scale_factor g - (1/2).

Definition begin (x : Z) : Z := Rceil (source x - kernel_radius).

Definition unnormalized_kernel (x k : Z) : R :=
  kernel info ((IZR k + IZR (begin x) - source x) * kernel_scaling).

Definition kernel_sum (x : Z) : R := sum_taps kernel_taps (unnormalized_kernel x).

Definition kernel_w (x k : Z) : R := unnormalized_kernel x k / kernel_sum x.

Definition kernel_x := kernel_w.
Definition kernel_y := kernel_w.
Definition beginx := begin.
Definition beginy := begin.

(** ** Separable resampler *)

Variable input : Buffer.

(** [upsample]: resize in x first, then in y. *)
Definition up_resized_x (x y c : Z) : R :=
  sum_taps kernel_taps (fun r => kernel_x x r * clamped input (r + beginx x) y c).
Definition up_resized_y (x y c : Z) : R :=
  sum_taps kernel_taps (fun r => kernel_y y r * up_resized_x x (r + beginy y) c).

(** otherwise: resize in y first, then in x. *)
Definition down_resized_y (x y c : Z) : R :=
  sum_taps kernel_taps (fun r => kernel_y y r * clamped input x (r + beginy y) c).
Definition down_resized_x (x y c : Z) : R :=
  sum_taps kernel_taps (fun r => kernel_x x r * down_resized_y (r + beginx x) y c).

Definition output (x y c : Z) : R :=
  if upsample g then clampR (up_resized_y x y c) 0 1
  else clampR (down_resized_x x y c) 0 1.

End Generator.

(** ** The spec's wording of the kernels, compared with the code above *)

(** §4.1: the normalised [sinc(x) = sin(πx)/(πx)] and the 3-lobe Lanczos
    weight [sinc(t)·sinc(t/3)] for [|t| < 3], [1] at [0], [0] elsewhere. *)
Definition spec_sinc (x : R) : R := sin (PI * x) / (PI * x).

Definition spec_lanczos (t : R) : R :=
  if Req_dec_T t 0 then 1
  else if Rlt_dec (Rabs t) 3 then spec_sinc t * spec_sinc (t / 3) else 0.

(** §4.1: the two pieces of the Keys cubic with parameter [a]. *)
Definition keys_near (a t : R) : R := (a + 2) * Rabs t ^ 3 - (a + 3) * t ^ 2 + 1.
Definition keys_far (a t : R) : R :=
  a * Rabs t ^ 3 - 5 * a * t ^ 2 + 8 * a * Rabs t - 4 * a.

(** The boundary handler's result as the spec words it: the nearest index
    of [[lo, hi]]. *)
Definition nearest_in_range (lo hi v : Z) : Z :=
  if (v <? lo)%Z then lo else if (hi <? v)%Z then hi else v.

(** ** Concrete inputs used below *)

(** The single-channel 2×2 image [[0,1],[1,0]] with origin [(0, 0)]. *)
Definition checker2x2 : Buffer :=
  {| x_min := 0; x_extent := 2; y_min := 0; y_extent := 2;
     data := fun i j _ => if (i =? j)%Z then 0 else 1 |}.

(** A one-row image [[0, 1]]: a step edge along x. *)
Definition step_row : Buffer :=
  {| x_min := 0; x_extent := 2; y_min := 0; y_extent := 1;
     data := fun i _ _ => if (i =? 1)%Z then 1 else 0 |}.

(** The buffer [a·in1 + b·in2], with the shape of [in1]. *)
Definition buffer_lincomb (a : R) (in1 : Buffer) (b : R) (in2 : Buffer) : Buffer :=
  {| x_min := x_min in1; x_extent := x_extent in1;
     y_min := y_min in1; y_extent := y_extent in1;
     data := fun i j ch => a * data in1 i j ch + b * data in2 i j ch |}.

(** Evaluate a closed integer on the right of an equation. *)
Ltac eval_rhs_Z :=
  match goal with |- _ = ?z => let v := eval vm_compute in z in change z with v end.

(** Evaluate the closed integer quotients under [IZR] in the goal. *)
Ltac eval_IZR_div :=
  repeat match goal with
  |- context [IZR (?a / ?b)%Z] =>
      let v := eval vm_compute in (a / b)%Z in change (IZR (a / b)%Z) with (IZR v)
  end.

(** ** Lattice sums of a kernel (used for the kernel sums of §4.2)

    The taps of one output pixel evaluate the kernel on the lattice
    [pt h e k = e + k h], [k] in [[0, kernel_taps)]. The functions below cut
    such a sum into the central lobe [|t| < 1] of [K] and its negative lobes
    [1 <= |t| < 2]; [lattice_m h] is the number of lattice steps from a tap
    of the central lobe to its partner in the next lobe. *)
Definition pt (h e : R) (k : Z) : R := e + IZR k * h.

Definition lattice_m (h : R) : Z := Rceil (1 / h).

Definition Kneg (K : R -> R) (t : R) : R := Rmax 0 (- K t).

Definition cen (K : R -> R) (h e : R) (k : Z) : R :=
  if Rlt_dec (Rabs (pt h e k)) 1 then K (pt h e k) else 0.
Definition cen_pos (K : R -> R) (h e : R) (k : Z) : R :=
  if Rlt_dec 0 (pt h e k) then if Rlt_dec (pt h e k) 1 then K (pt h e k) else 0 else 0.
Definition cen_neg (K : R -> R) (h e : R) (k : Z) : R :=
  if Rlt_dec (pt h e k) 0 then if Rlt_dec (-1) (pt h e k) then K (pt h e k) else 0 else 0.
Definition exc_r (K : R -> R) (h e : R) (k : Z) : R :=
  if Rle_dec 1 (pt h e k) then
    if Rle_dec (pt h e k) (IZR (lattice_m h) * h) then Kneg K (pt h e k) else 0 else 0.
Definition exc_l (K : R -> R) (h e : R) (k : Z) : R :=
  if Rle_dec (pt h e k) (-1) then
    if Rle_dec (- (IZR (lattice_m h) * h)) (pt h e k) then Kneg K (pt h e k) else 0 else 0.
Definition cen_rest (K : R -> R) (c h e : R) (k : Z) : R :=
  cen K h e k - c * cen_pos K h e k - c * cen_neg K h e k.

(** ** Basic facts *)

Lemma Rfloor_spec (r : R) : IZR (Rfloor r) <= r < IZR (Rfloor r) + 1.
Proof.
  unfold Rfloor. destruct (archimed r) as [H1 H2].
  rewrite minus_IZR. lra.
Qed.

Lemma Rceil_spec (r : R) : IZR (Rceil r) - 1 < r <= IZR (Rceil r).
Proof.
  unfold Rceil. destruct (Rfloor_spec (- r)) as [H1 H2].
  rewrite opp_IZR. lra.
Qed.

Lemma Rceil_unique (r : R) (z : Z) : IZR z - 1 < r <= IZR z -> Rceil r = z.
Proof.
  intros [H1 H2]. destruct (Rceil_spec r) as [H3 H4].
  assert (A : (Rceil r - 1 < z)%Z) by (apply lt_IZR; rewrite minus_IZR; lra).
  assert (B : (z - 1 < Rceil r)%Z) by (apply lt_IZR; rewrite minus_IZR; lra).
  lia.
Qed.

Lemma Rceil_IZR (z : Z) : Rceil (IZR z) = z.
Proof. apply Rceil_unique. lra. Qed.

Lemma sum_rdom_ext (n : nat) (f g : Z -> R) :
  (forall k, (0 <= k < Z.of_nat n)%Z -> f k = g k) ->
  sum_rdom n f = sum_rdom n g.
Proof.
  induction n as [|n IH]; intros H; simpl; [reflexivity|].
  rewrite IH by (intros k Hk; apply H; lia). rewrite (H (Z.of_nat n)) by lia.
  reflexivity.
Qed.

Lemma sum_rdom_plus (n : nat) (f g : Z -> R) :
  sum_rdom n (fun k => f k + g k) = sum_rdom n f + sum_rdom n g.
Proof. induction n as [|n IH]; simpl; [lra|]. rewrite IH. lra. Qed.

Lemma sum_rdom_scal (n : nat) (a : R) (f : Z -> R) :
  sum_rdom n (fun k => a * f k) = a * sum_rdom n f.
Proof. induction n as [|n IH]; simpl; [lra|]. rewrite IH. lra. Qed.

Lemma sum_rdom_comm (n m : nat) (f : Z -> Z -> R) :
  sum_rdom n (fun i => sum_rdom m (fun j => f i j)) =
  sum_rdom m (fun j => sum_rdom n (fun i => f i j)).
Proof.
  induction n as [|n IH]; simpl.
  - induction m as [|m IHm]; simpl; [reflexivity|]. rewrite <- IHm. lra.
  - rewrite IH, <- sum_rdom_plus. reflexivity.
Qed.

Lemma cubic_poly_deriv (p3 p2 p1 p0 x l : R) :
  l = 3 * p3 * x ^ 2 + 2 * p2 * x + p1 ->
  derivable_pt_lim (fun u => p3 * u ^ 3 + p2 * u ^ 2 + p1 * u + p0) x l.
Proof.
  intros ->.
  apply (derivable_pt_lim_ext
    ((mult_real_fct p3 (fun y => y ^ 3) + mult_real_fct p2 (fun y => y ^ 2))
     + mult_real_fct p1 id + fct_cte p0)%F).
  { intro z. unfold plus_fct, mult_real_fct, fct_cte, id. reflexivity. }
  replace (3 * p3 * x ^ 2 + 2 * p2 * x + p1) with
    (p3 * (INR 3 * x ^ pred 3) + p2 * (INR 2 * x ^ pred 2) + p1 * 1 + 0)
    by (simpl; ring).
  repeat apply derivable_pt_lim_plus;
    try apply derivable_pt_lim_scal;
    try apply derivable_pt_lim_pow;
    try apply derivable_pt_lim_id;
    try apply derivable_pt_lim_const.
Qed.

(** A function that agrees with [p] just left of [b] and with [q] just
    right of [b] has derivative [L] at [b] if both [p] and [q] do. *)
Lemma derivable_pt_lim_glue (f p q : R -> R) (b L d : R) :
  0 < d ->
  (forall z, b - d < z <= b -> f z = p z) ->
  (forall z, b <= z < b + d -> f z = q z) ->
  derivable_pt_lim p b L -> derivable_pt_lim q b L -> derivable_pt_lim f b L.
Proof.
  intros Hd Hp Hq Dp Dq eps Heps.
  destruct (Dp eps Heps) as [dp Pp]. destruct (Dq eps Heps) as [dq Pq].
  assert (Hm : 0 < Rmin d (Rmin dp dq)).
  { apply Rmin_pos; [lra | apply Rmin_pos; apply cond_pos]. }
  exists (mkposreal _ Hm). simpl. intros h Hh0 Hh.
  assert (H1 : Rabs h < d) by (eapply Rlt_le_trans; [exact Hh | apply Rmin_l]).
  assert (H2 : Rabs h < Rmin dp dq) by (eapply Rlt_le_trans; [exact Hh | apply Rmin_r]).
  assert (H3 : Rabs h < dp) by (eapply Rlt_le_trans; [exact H2 | apply Rmin_l]).
  assert (H4 : Rabs h < dq) by (eapply Rlt_le_trans; [exact H2 | apply Rmin_r]).
  apply Rabs_def2 in H1. destruct H1 as [H1a H1b].
  destruct (Rle_or_lt h 0) as [Hneg | Hpos].
  - rewrite (Hp (b + h)) by lra. rewrite (Hp b) by lra. apply Pp; assumption.
  - rewrite (Hq (b + h)) by lra. rewrite (Hq b) by lra. apply Pq; assumption.
Qed.

Lemma kernel_cubic_even (z : R) : kernel_cubic (- z) = kernel_cubic z.
Proof. unfold kernel_cubic. rewrite Rabs_Ropp. reflexivity. Qed.

Lemma kernel_cubic_near (z : R) : 0 <= z < 1 ->
  kernel_cubic z = (3/2) * z ^ 3 + ((-5/2)) * z ^ 2 + 0 * z + 1.
Proof.
  intros Hz. unfold kernel_cubic; cbv zeta. rewrite Rabs_right by lra.
  destruct (Rlt_dec z 1); [field | lra].
Qed.

Lemma kernel_cubic_far (z : R) : 1 <= z < 2 ->
  kernel_cubic z = ((-1/2)) * z ^ 3 + (5/2) * z ^ 2 + (-4) * z + 2.
Proof.
  intros Hz. unfold kernel_cubic; cbv zeta. rewrite Rabs_right by lra.
  destruct (Rlt_dec z 1); [lra|]. destruct (Rlt_dec z 2); [field | lra].
Qed.

Lemma kernel_cubic_out (z : R) : 2 <= Rabs z -> kernel_cubic z = 0.
Proof.
  intros Hz. unfold kernel_cubic; cbv zeta.
  destruct (Rlt_dec (Rabs z) 1); [lra|]. destruct (Rlt_dec (Rabs z) 2); [lra|].
  reflexivity.
Qed.

Lemma kernel_cubic_deriv_1 : derivable_pt_lim kernel_cubic 1 ((-1/2)).
Proof.
  apply (derivable_pt_lim_glue _
           (fun u => (3/2) * u ^ 3 + ((-5/2)) * u ^ 2 + 0 * u + 1)
           (fun u => ((-1/2)) * u ^ 3 + (5/2) * u ^ 2 + (-4) * u + 2) 1 ((-1/2)) (1/2)).
  - lra.
  - intros z Hz. destruct (Req_dec z 1) as [->|Hne].
    + rewrite kernel_cubic_far by lra. field.
    + apply kernel_cubic_near. lra.
  - intros z Hz. apply kernel_cubic_far. lra.
  - apply cubic_poly_deriv. field.
  - apply cubic_poly_deriv. field.
Qed.

Lemma kernel_cubic_deriv_2 : derivable_pt_lim kernel_cubic 2 0.
Proof.
  apply (derivable_pt_lim_glue _
           (fun u => ((-1/2)) * u ^ 3 + (5/2) * u ^ 2 + (-4) * u + 2)
           (fun u => 0 * u ^ 3 + 0 * u ^ 2 + 0 * u + 0) 2 0 (1/2)).
  - lra.
  - intros z Hz. destruct (Req_dec z 2) as [->|Hne].
    + rewrite kernel_cubic_out by (rewrite Rabs_right; lra). field.
    + apply kernel_cubic_far. lra.
  - intros z Hz. rewrite kernel_cubic_out by (rewrite Rabs_right; lra). field.
  - apply cubic_poly_deriv. field.
  - apply cubic_poly_deriv. field.
Qed.

Lemma kernel_cubic_deriv_m1 : derivable_pt_lim kernel_cubic (-1) (1/2).
Proof.
  apply (derivable_pt_lim_glue _
           (fun u => (1/2) * u ^ 3 + (5/2) * u ^ 2 + 4 * u + 2)
           (fun u => ((-3/2)) * u ^ 3 + ((-5/2)) * u ^ 2 + 0 * u + 1) (-1) (1/2) (1/2)).
  - lra.
  - intros z Hz. rewrite <- (Ropp_involutive z), kernel_cubic_even.
    rewrite kernel_cubic_far by lra. field.
  - intros z Hz. rewrite <- (Ropp_involutive z), kernel_cubic_even.
    destruct (Req_dec z (-1)) as [->|Hne].
    + rewrite kernel_cubic_far by lra. field.
    + rewrite kernel_cubic_near by lra. field.
  - apply cubic_poly_deriv. field.
  - apply cubic_poly_deriv. field.
Qed.

Lemma kernel_cubic_deriv_m2 : derivable_pt_lim kernel_cubic (-2) 0.
Proof.
  apply (derivable_pt_lim_glue _
           (fun u => 0 * u ^ 3 + 0 * u ^ 2 + 0 * u + 0)
           (fun u => (1/2) * u ^ 3 + (5/2) * u ^ 2 + 4 * u + 2) (-2) 0 (1/2)).
  - lra.
  - intros z Hz. rewrite kernel_cubic_out by (rewrite Rabs_left; lra). field.
  - intros z Hz. rewrite <- (Ropp_involutive z), kernel_cubic_even.
    destruct (Req_dec z (-2)) as [->|Hne].
    + rewrite kernel_cubic_out by (rewrite Rabs_right; lra). field.
    + rewrite kernel_cubic_far by lra. field.
  - apply cubic_poly_deriv. field.
  - apply cubic_poly_deriv. field.
Qed.

Lemma derivable_lim_continuous (f : R -> R) (x l : R) :
  derivable_pt_lim f x l -> continuity_pt f x.
Proof. intros H. apply derivable_continuous_pt. exists l. exact H. Qed.

(** ** C8: the cubic kernel *)

(** C8: [kernel_cubic] is the Keys cubic with [a = -1/2]: the near piece
    [(a+2)|t|³ − (a+3)t² + 1] for [|t| < 1], the far piece
    [a|t|³ − 5a t² + 8a|t| − 4a] for [1 ≤ |t| < 2], [0] beyond.  The pieces
    agree in value ([0] at [|t| = 1], [0] at [|t| = 2]) and in first
    derivative at the breakpoints, and the kernel itself is differentiable,
    hence continuous, at [t = ±1] and [t = ±2]. *)
Theorem kernel_cubic_keys :
  (forall t, kernel_cubic t =
     if Rlt_dec (Rabs t) 1 then keys_near (-1/2) t
     else if Rlt_dec (Rabs t) 2 then keys_far (-1/2) t else 0) /\
  keys_near (-1/2) 1 = 0 /\ keys_far (-1/2) 1 = 0 /\
  keys_far (-1/2) 2 = 0 /\
  derivable_pt_lim (keys_near (-1/2)) 1 (-1/2) /\
  derivable_pt_lim (keys_far (-1/2)) 1 (-1/2) /\
  derivable_pt_lim (keys_far (-1/2)) 2 0 /\
  derivable_pt_lim kernel_cubic 1 (-1/2) /\
  derivable_pt_lim kernel_cubic (-1) (1/2) /\
  derivable_pt_lim kernel_cubic 2 0 /\
  derivable_pt_lim kernel_cubic (-2) 0 /\
  continuity_pt kernel_cubic 1 /\ continuity_pt kernel_cubic (-1) /\
  continuity_pt kernel_cubic 2 /\ continuity_pt kernel_cubic (-2).
Proof.
  assert (Ht : forall t, t ^ 2 = Rabs t ^ 2) by (intro t; rewrite pow2_abs; reflexivity).
  split; [|split; [|split; [|split; [|split; [|split; [|split]]]]]].
  - intro t. unfold kernel_cubic, keys_near, keys_far; cbv zeta. rewrite Ht.
    destruct (Rlt_dec (Rabs t) 1); [field|].
    destruct (Rlt_dec (Rabs t) 2); [field | reflexivity].
  - unfold keys_near. rewrite Rabs_R1. field.
  - unfold keys_far. rewrite Rabs_R1. field.
  - unfold keys_far. rewrite Rabs_right by lra. field.
  - apply (derivable_pt_lim_locally_ext
             (fun u => (3/2) * u ^ 3 + (-5/2) * u ^ 2 + 0 * u + 1) _ 1 0 2).
    + lra.
    + intros z Hz. unfold keys_near. rewrite Rabs_right by lra. field.
    + apply cubic_poly_deriv. field.
  - apply (derivable_pt_lim_locally_ext
             (fun u => (-1/2) * u ^ 3 + (5/2) * u ^ 2 + (-4) * u + 2) _ 1 0 3).
    + lra.
    + intros z Hz. unfold keys_far. rewrite Rabs_right by lra. field.
    + apply cubic_poly_deriv. field.
  - apply (derivable_pt_lim_locally_ext
             (fun u => (-1/2) * u ^ 3 + (5/2) * u ^ 2 + (-4) * u + 2) _ 2 0 3).
    + lra.
    + intros z Hz. unfold keys_far. rewrite Rabs_right by lra. field.
    + apply cubic_poly_deriv. field.
  - pose proof kernel_cubic_deriv_1. pose proof kernel_cubic_deriv_m1.
    pose proof kernel_cubic_deriv_2. pose proof kernel_cubic_deriv_m2.
    repeat split; try assumption; eapply derivable_lim_continuous; eassumption.
Qed.

(** ** C1: the Lanczos kernel *)

Lemma sin_PI_neg : sin (PI * -1) = 0.
Proof. replace (PI * -1) with (- PI) by ring. rewrite sin_neg, sin_PI. ring. Qed.

Lemma kernel_lanczos_outside (t : R) : 3 <= Rabs t -> kernel_lanczos t = 0.
Proof.
  intros Ht. unfold kernel_lanczos; cbv zeta.
  destruct (Rlt_dec 3 t); [reflexivity|]. destruct (Rlt_dec t (-3)); [reflexivity|].
  destruct (Req_dec_T t 0) as [E|_]; [subst; rewrite Rabs_R0 in Ht; lra|].
  assert (H3 : t = 3 \/ t = -3).
  { destruct (Rle_or_lt 0 t); [rewrite Rabs_right in Ht by lra | rewrite Rabs_left in Ht by lra]; lra. }
  unfold sinc. destruct H3 as [-> | ->].
  - replace (3 / 3) with 1 by field. rewrite Rmult_1_r, sin_PI. field.
  - replace (-3 / 3) with (-1) by field. rewrite sin_PI_neg. field.
Qed.

Lemma kernel_lanczos_scaled (t : R) :
  t <> 0 -> Rabs t < 3 -> kernel_lanczos t = PI ^ 2 * spec_lanczos t.
Proof.
  intros H0 Ht. apply Rabs_def2 in Ht.
  unfold kernel_lanczos, spec_lanczos, spec_sinc, sinc; cbv zeta.
  destruct (Rlt_dec 3 t); [lra|]. destruct (Rlt_dec t (-3)); [lra|].
  destruct (Req_dec_T t 0); [contradiction|].
  destruct (Rlt_dec (Rabs t) 3) as [_|N]; [|exfalso; apply N, Rabs_def1; lra].
  pose proof PI_neq0. field. auto.
Qed.

(** C1 (code_bug): [kernel_lanczos] has the value [1] at [0] and [0] at
    [|t| = 3] as the spec says, but its [sinc] is [sin(πx)/x], without the
    [π] of the denominator: at [t = 1/2] the code returns [6] where the
    spec's [sinc(t)·sinc(t/3)] is [6/π²]. *)
Theorem kernel_lanczos_at_half :
  kernel_lanczos 0 = 1 /\ kernel_lanczos 3 = 0 /\ kernel_lanczos (-3) = 0 /\
  kernel_lanczos (1/2) = 6 /\ spec_lanczos (1/2) = 6 / PI ^ 2 /\
  kernel_lanczos (1/2) <> spec_lanczos (1/2).
Proof.
  assert (Hk : kernel_lanczos (1/2) = 6).
  { unfold kernel_lanczos, sinc; cbv zeta.
    destruct (Rlt_dec 3 (1/2)); [lra|]. destruct (Rlt_dec (1/2) (-3)); [lra|].
    destruct (Req_dec_T (1/2) 0); [lra|].
    replace (PI * (1/2)) with (PI / 2) by field.
    replace (PI * (1/2/3)) with (PI / 6) by field.
    rewrite sin_PI2, sin_PI6. field. }
  assert (Hs : spec_lanczos (1/2) = 6 / PI ^ 2).
  { pose proof PI_neq0.
    assert (E : kernel_lanczos (1/2) = PI ^ 2 * spec_lanczos (1/2))
      by (apply kernel_lanczos_scaled; [lra | rewrite Rabs_right; lra]).
    rewrite Hk in E. apply (Rmult_eq_reg_l (PI ^ 2)); [|apply pow_nonzero; auto].
    rewrite <- E. field. auto. }
  split; [|split; [|split; [|split; [|split]]]].
  - unfold kernel_lanczos; cbv zeta.
    destruct (Rlt_dec 3 0); [lra|]. destruct (Rlt_dec 0 (-3)); [lra|].
    destruct (Req_dec_T 0 0); [reflexivity | congruence].
  - apply kernel_lanczos_outside. rewrite Rabs_right; lra.
  - apply kernel_lanczos_outside. rewrite Rabs_left; lra.
  - exact Hk.
  - exact Hs.
  - rewrite Hk, Hs. intro E.
    assert (P3 : 3 < PI) by (pose proof PI2_3_2; lra).
    assert (P2 : 9 < PI ^ 2) by nra.
    assert (E' : 6 * PI ^ 2 = 6) by (rewrite E at 1; field; lra).
    nra.
Qed.

(** ** C7: the boundary handler *)

Lemma repeat_edge_coord_nearest (lo ext v : Z) :
  (0 < ext)%Z ->
  repeat_edge_coord lo ext v = nearest_in_range lo (lo + ext - 1) v.
Proof.
  intros H. unfold repeat_edge_coord, nearest_in_range.
  destruct (Z.ltb_spec v lo); [lia|]. destruct (Z.ltb_spec (lo + ext - 1) v); lia.
Qed.

Lemma nearest_in_range_bounds (lo hi v : Z) :
  (lo <= hi)%Z -> (lo <= nearest_in_range lo hi v <= hi)%Z.
Proof.
  intros H. unfold nearest_in_range.
  destruct (Z.ltb_spec v lo); [lia|]. destruct (Z.ltb_spec hi v); lia.
Qed.

(** C7: on a non-empty buffer, [clamped] at any integer [(x, y, c)] is the
    input's sample at [x] and [y] moved to the nearest index of
    [[min, min + extent - 1]] (the coordinate itself when it is in range),
    channel unchanged; those indices lie inside the buffer, so two buffers
    of the same shape that agree inside the buffer on channel [c] give the
    same value: nothing outside the buffer is read.  The model is a pure
    function of the buffer, which it does not change. *)
Theorem clamped_reads_nearest_in_range (input : Buffer) (x y c : Z) :
  (0 < x_extent input)%Z -> (0 < y_extent input)%Z ->
  let xr := nearest_in_range (x_min input) (x_min input + x_extent input - 1) x in
  let yr := nearest_in_range (y_min input) (y_min input + y_extent input - 1) y in
  clamped input x y c = data input xr yr c /\
  (x_min input <= xr <= x_min input + x_extent input - 1)%Z /\
  (y_min input <= yr <= y_min input + y_extent input - 1)%Z /\
  ((x_min input <= x <= x_min input + x_extent input - 1)%Z -> xr = x) /\
  ((y_min input <= y <= y_min input + y_extent input - 1)%Z -> yr = y) /\
  (forall input' : Buffer,
     x_min input' = x_min input -> x_extent input' = x_extent input ->
     y_min input' = y_min input -> y_extent input' = y_extent input ->
     (forall i j, (x_min input <= i <= x_min input + x_extent input - 1)%Z ->
                  (y_min input <= j <= y_min input + y_extent input - 1)%Z ->
                  data input' i j c = data input i j c) ->
     clamped input' x y c = clamped input x y c).
Proof.
  intros Hx Hy xr yr.
  assert (Ex : repeat_edge_coord (x_min input) (x_extent input) x = xr)
    by (apply repeat_edge_coord_nearest; exact Hx).
  assert (Ey : repeat_edge_coord (y_min input) (y_extent input) y = yr)
    by (apply repeat_edge_coord_nearest; exact Hy).
  assert (Bx := nearest_in_range_bounds (x_min input) (x_min input + x_extent input - 1) x
                  ltac:(lia)).
  assert (By := nearest_in_range_bounds (y_min input) (y_min input + y_extent input - 1) y
                  ltac:(lia)).
  fold xr in Bx. fold yr in By.
  split; [|split; [exact Bx|split; [exact By|split; [|split]]]].
  - unfold clamped. rewrite Ex, Ey. reflexivity.
  - intros H. subst xr. unfold nearest_in_range.
    destruct (Z.ltb_spec x (x_min input)); [lia|].
    destruct (Z.ltb_spec (x_min input + x_extent input - 1) x); lia.
  - intros H. subst yr. unfold nearest_in_range.
    destruct (Z.ltb_spec y (y_min input)); [lia|].
    destruct (Z.ltb_spec (y_min input + y_extent input - 1) y); lia.
  - intros input' E1 E2 E3 E4 Hd. unfold clamped.
    rewrite E1, E2, E3, E4, Ex, Ey. apply Hd; assumption.
Qed.

(** ** C5: the output clamp *)

Lemma clampR_unit (v : R) : 0 <= clampR v 0 1 <= 1.
Proof.
  unfold clampR, Rmax, Rmin.
  destruct (Rle_dec v 1); destruct (Rle_dec _ 0); lra.
Qed.

(** C5: whatever the parameters and the input, every output sample lies
    in [[0, 1]]: the final clamp is unconditional on both orderings. *)
Theorem output_in_unit_interval (g : Resize) (input : Buffer) (x y c : Z) :
  0 <= output g input x y c <= 1.
Proof. unfold output. destruct (upsample g); apply clampR_unit. Qed.

(** ** C3: the identity scale *)

Lemma sum_rdom_zero (n : nat) (f : Z -> R) :
  (forall k, (0 <= k < Z.of_nat n)%Z -> f k = 0) -> sum_rdom n f = 0.
Proof.
  induction n as [|n IH]; intros H; simpl; [reflexivity|].
  rewrite IH by (intros k Hk; apply H; lia). rewrite H by lia. ring.
Qed.

Lemma sum_rdom_single (n : nat) (f : Z -> R) (d : Z) :
  (0 <= d < Z.of_nat n)%Z ->
  (forall k, (0 <= k < Z.of_nat n)%Z -> k <> d -> f k = 0) ->
  sum_rdom n f = f d.
Proof.
  induction n as [|n IH]; intros Hd H; simpl; [lia|].
  destruct (Z.eq_dec (Z.of_nat n) d) as [E|E].
  - rewrite sum_rdom_zero by (intros k Hk; apply H; lia). rewrite E. ring.
  - rewrite IH by (try lia; intros k Hk Hne; apply H; lia).
    rewrite (H (Z.of_nat n)) by lia. ring.
Qed.

Lemma IZR_abs_ge_1 (j : Z) : j <> 0%Z -> 1 <= Rabs (IZR j).
Proof.
  intros H. rewrite <- abs_IZR. apply IZR_le. lia.
Qed.

Lemma sin_PI_IZR (j : Z) : sin (PI * IZR j) = 0.
Proof. apply sin_eq_0_1. exists j. ring. Qed.

(** Every kernel is [1] at [0] and [0] at every other integer. *)
Lemma kernel_at_integer (it : InterpolationType) (j : Z) :
  kernel (kernel_info it) (IZR j) = if (j =? 0)%Z then 1 else 0.
Proof.
  destruct (Z.eqb_spec j 0) as [->|Hj].
  - destruct it; simpl.
    + unfold kernel_box. rewrite Rabs_R0. destruct (Rle_dec 0 (1/2)); lra.
    + unfold kernel_linear. rewrite Rabs_R0. destruct (Rlt_dec 0 1); lra.
    + unfold kernel_cubic; cbv zeta. rewrite Rabs_R0.
      destruct (Rlt_dec 0 1); [field | lra].
    + unfold kernel_lanczos; cbv zeta.
      destruct (Rlt_dec 3 0); [lra|]. destruct (Rlt_dec 0 (-3)); [lra|].
      destruct (Req_dec_T 0 0); [reflexivity | congruence].
  - pose proof (IZR_abs_ge_1 j Hj) as Ha.
    destruct it; simpl.
    + unfold kernel_box. destruct (Rle_dec (Rabs (IZR j)) (1/2)); lra.
    + unfold kernel_linear. destruct (Rlt_dec (Rabs (IZR j)) 1); lra.
    + destruct (Rle_or_lt 2 (Rabs (IZR j))) as [H2|H2].
      * apply kernel_cubic_out. exact H2.
      * assert (E : Rabs (IZR j) = 1).
        { rewrite <- abs_IZR in *. apply lt_IZR in H2. apply le_IZR in Ha.
          f_equal. lia. }
        unfold kernel_cubic; cbv zeta. rewrite E.
        destruct (Rlt_dec 1 1); [lra|]. destruct (Rlt_dec 1 2); [field | lra].
    + destruct (Rle_or_lt 3 (Rabs (IZR j))) as [H3|H3].
      * apply kernel_lanczos_outside. exact H3.
      * rewrite kernel_lanczos_scaled; [| apply not_0_IZR; exact Hj | exact H3].
        unfold spec_lanczos, spec_sinc.
        destruct (Req_dec_T (IZR j) 0) as [E|_]; [exfalso; exact (not_0_IZR j Hj E)|].
        destruct (Rlt_dec (Rabs (IZR j)) 3); [|ring].
        rewrite sin_PI_IZR. unfold Rdiv. ring.
Qed.

Lemma kernel_scaling_one (g : Resize) :
  scale_factor g = 1 -> kernel_scaling g = 1.
Proof. intros H. unfold kernel_scaling. destruct (upsample g); auto. Qed.

(** With [scale_factor = 1] every weight table is a single unit tap at the
    source pixel. *)
Lemma identity_scale_tables (g : Resize) :
  scale_factor g = 1 ->
  exists d : Z,
    (0 <= d < kernel_taps g)%Z /\
    (forall x, begin g x = (x - d)%Z) /\
    (forall x k, kernel_w g x k = if (k =? d)%Z then 1 else 0).
Proof.
  intros Hs. pose proof (kernel_scaling_one g Hs) as Hk.
  assert (Hsrc : forall x, source g x = IZR x)
    by (intro x; unfold source; rewrite Hs; field).
  assert (Ht : kernel_taps g = taps (info g)).
  { unfold kernel_taps. rewrite Hk, Rdiv_1_r. apply Rceil_IZR. }
  assert (Hd : exists d, (0 <= d < taps (info g))%Z /\
                 forall x, begin g x = (x - d)%Z).
  { unfold begin, kernel_radius. rewrite Hk.
    destruct (interpolation_type g) eqn:Hi; unfold info; rewrite Hi; simpl;
      [exists 0%Z | exists 1%Z | exists 2%Z | exists 3%Z];
      (split; [lia|]); intro x; rewrite Hsrc; apply Rceil_unique;
      rewrite minus_IZR; simpl; lra. }
  destruct Hd as [d [Hd Hb]]. exists d. rewrite Ht.
  assert (Hu : forall x k, unnormalized_kernel g x k = if (k =? d)%Z then 1 else 0).
  { intros x k. unfold unnormalized_kernel. rewrite Hk, Hsrc, Hb, Rmult_1_r.
    replace (IZR k + IZR (x - d) - IZR x) with (IZR (k - d)).
    - unfold info. rewrite kernel_at_integer.
      destruct (Z.eqb_spec (k - d) 0); destruct (Z.eqb_spec k d); auto; lia.
    - rewrite !minus_IZR. ring. }
  assert (Hsum : forall x, kernel_sum g x = 1).
  { intro x. unfold kernel_sum, sum_taps. rewrite Ht.
    rewrite (sum_rdom_single _ _ d).
    - rewrite Hu, Z.eqb_refl. reflexivity.
    - rewrite Z2Nat.id; lia.
    - intros k _ Hne. rewrite Hu. destruct (Z.eqb_spec k d); [contradiction | reflexivity]. }
  split; [exact Hd | split; [exact Hb|]].
  intros x k. unfold kernel_w. rewrite Hsum, Hu. field.
Qed.

Lemma unit_table_pass (g : Resize) (d : Z) (F : Z -> R) (x : Z) :
  (0 <= d < kernel_taps g)%Z ->
  begin g x = (x - d)%Z ->
  (forall k, kernel_w g x k = if (k =? d)%Z then 1 else 0) ->
  sum_taps (kernel_taps g) (fun r => kernel_w g x r * F (r + begin g x)%Z) = F x.
Proof.
  intros Hd Hb Hw. unfold sum_taps.
  rewrite (sum_rdom_single _ _ d).
  - rewrite Hw, Z.eqb_refl, Hb. replace (d + (x - d))%Z with x by lia. ring.
  - rewrite Z2Nat.id; lia.
  - intros k _ Hne. rewrite Hw. destruct (Z.eqb_spec k d); [contradiction | ring].
Qed.

Lemma repeat_edge_coord_in (lo ext v : Z) :
  (lo <= v <= lo + ext - 1)%Z -> repeat_edge_coord lo ext v = v.
Proof. intros H. unfold repeat_edge_coord. lia. Qed.

Lemma clampR_id (v : R) : 0 <= v <= 1 -> clampR v 0 1 = v.
Proof.
  intros H. unfold clampR, Rmax, Rmin.
  destruct (Rle_dec v 1); [|lra]. destruct (Rle_dec v 0); lra.
Qed.

(** C3: with [scale_factor = 1], for every kernel and either ordering, the
    output at an in-range coordinate is the input sample there (the sample
    being in [[0, 1]]). *)
Theorem output_identity_scale (g : Resize) (input : Buffer) (x y c : Z) :
  scale_factor g = 1 ->
  (x_min input <= x <= x_min input + x_extent input - 1)%Z ->
  (y_min input <= y <= y_min input + y_extent input - 1)%Z ->
  0 <= data input x y c <= 1 ->
  output g input x y c = data input x y c.
Proof.
  intros Hs Hx Hy Hv.
  destruct (identity_scale_tables g Hs) as [d [Hd [Hb Hw]]].
  assert (Cl : clamped input x y c = data input x y c).
  { unfold clamped. rewrite !repeat_edge_coord_in by assumption. reflexivity. }
  unfold output. destruct (upsample g).
  - unfold up_resized_y, kernel_y, beginy.
    rewrite (unit_table_pass g d (fun j => up_resized_x g input x j c) y Hd (Hb y) (Hw y)).
    unfold up_resized_x, kernel_x, beginx.
    rewrite (unit_table_pass g d (fun i => clamped input i y c) x Hd (Hb x) (Hw x)).
    rewrite Cl. apply clampR_id. exact Hv.
  - unfold down_resized_x, kernel_x, beginx.
    rewrite (unit_table_pass g d (fun i => down_resized_y g input i y c) x Hd (Hb x) (Hw x)).
    unfold down_resized_y, kernel_y, beginy.
    rewrite (unit_table_pass g d (fun j => clamped input x j c) y Hd (Hb y) (Hw y)).
    rewrite Cl. apply clampR_id. exact Hv.
Qed.

(** ** C10: channels never mix *)

Lemma output_clamped_ext (g : Resize) (in1 in2 : Buffer) (c : Z) :
  (forall i j, clamped in1 i j c = clamped in2 i j c) ->
  forall x y, output g in1 x y c = output g in2 x y c.
Proof.
  intros H x y. unfold output. destruct (upsample g); f_equal.
  - unfold up_resized_y, sum_taps. apply sum_rdom_ext. intros r _. f_equal.
    unfold up_resized_x, sum_taps. apply sum_rdom_ext. intros r' _. rewrite H. reflexivity.
  - unfold down_resized_x, sum_taps. apply sum_rdom_ext. intros r _. f_equal.
    unfold down_resized_y, sum_taps. apply sum_rdom_ext. intros r' _. rewrite H. reflexivity.
Qed.

(** C10: the weight tables [kernel_x g] and [kernel_y g] are functions of
    the configuration [g], the coordinate along their axis and the tap
    only (no buffer, channel or orthogonal coordinate appears in their
    type), and the output on channel [c] depends only on channel [c] of
    the input: two inputs of the same shape that agree on channel [c]
    give the same output on channel [c] everywhere. *)
Theorem output_channel_independent (g : Resize) (in1 in2 : Buffer) (c : Z) :
  x_min in1 = x_min in2 -> x_extent in1 = x_extent in2 ->
  y_min in1 = y_min in2 -> y_extent in1 = y_extent in2 ->
  (forall i j, data in1 i j c = data in2 i j c) ->
  forall x y, output g in1 x y c = output g in2 x y c.
Proof.
  intros E1 E2 E3 E4 Hd. apply output_clamped_ext.
  intros i j. unfold clamped. rewrite E1, E2, E3, E4. apply Hd.
Qed.

(** ** C4: the two orderings *)

(** With one set of weight tables, resizing in x then y and in y then x
    give the same value: both are the double sum over the tap window. *)
Lemma orders_same_tables (g : Resize) (input : Buffer) (x y c : Z) :
  up_resized_y g input x y c = down_resized_x g input x y c.
Proof.
  unfold up_resized_y, down_resized_x, up_resized_x, down_resized_y, sum_taps.
  unfold kernel_x, kernel_y, beginx, beginy.
  transitivity (sum_rdom (Z.to_nat (kernel_taps g)) (fun j =>
                  sum_rdom (Z.to_nat (kernel_taps g)) (fun i =>
                    kernel_w g y j * (kernel_w g x i *
                      clamped input (i + begin g x) (j + begin g y) c)))).
  - apply sum_rdom_ext. intros j _. rewrite <- sum_rdom_scal. reflexivity.
  - rewrite sum_rdom_comm. apply sum_rdom_ext. intros i _.
    rewrite <- sum_rdom_scal. apply sum_rdom_ext. intros j _. ring.
Qed.

Lemma tables_congr (g1 g2 : Resize) :
  interpolation_type g1 = interpolation_type g2 ->
  kernel_scaling g1 = kernel_scaling g2 ->
  scale_factor g1 = scale_factor g2 ->
  kernel_taps g1 = kernel_taps g2 /\ (forall x, begin g1 x = begin g2 x) /\
  (forall x k, kernel_w g1 x k = kernel_w g2 x k).
Proof.
  intros Ei Ek Es.
  assert (Ii : info g1 = info g2) by (unfold info; rewrite Ei; reflexivity).
  assert (Et : kernel_taps g1 = kernel_taps g2)
    by (unfold kernel_taps; rewrite Ii, Ek; reflexivity).
  assert (Eb : forall x, begin g1 x = begin g2 x)
    by (intro x; unfold begin, source, kernel_radius; rewrite Ii, Ek, Es; reflexivity).
  assert (Eu : forall x k, unnormalized_kernel g1 x k = unnormalized_kernel g2 x k)
    by (intros x k; unfold unnormalized_kernel, source; rewrite Ii, Ek, Es, Eb; reflexivity).
  split; [exact Et | split; [exact Eb|]].
  intros x k. unfold kernel_w, kernel_sum. rewrite Et, Eu.
  f_equal. unfold sum_taps. apply sum_rdom_ext. intros; apply Eu.
Qed.

Lemma down_resized_x_congr (g1 g2 : Resize) (input : Buffer) (x y c : Z) :
  interpolation_type g1 = interpolation_type g2 ->
  kernel_scaling g1 = kernel_scaling g2 ->
  scale_factor g1 = scale_factor g2 ->
  down_resized_x g1 input x y c = down_resized_x g2 input x y c.
Proof.
  intros Ei Ek Es. destruct (tables_congr g1 g2 Ei Ek Es) as [Et [Eb Ew]].
  unfold down_resized_x, down_resized_y, sum_taps, kernel_x, kernel_y, beginx, beginy.
  rewrite Et. apply sum_rdom_ext. intros r _. rewrite Ew, Eb. f_equal.
  apply sum_rdom_ext. intros r' _. rewrite Ew, Eb. reflexivity.
Qed.

(** C4 (amended): for one set of weight tables the x-then-y and the
    y-then-x compositions agree exactly; the two pipelines the [upsample]
    flag builds use the same tables, and so give the same output, when
    [scale_factor = 1]. *)
Theorem orders_agree_on_same_tables :
  (forall (g : Resize) (input : Buffer) (x y c : Z),
     up_resized_y g input x y c = down_resized_x g input x y c) /\
  (forall (it : InterpolationType) (input : Buffer) (x y c : Z),
     output {| interpolation_type := it; upsample := true; scale_factor := 1 |} input x y c =
     output {| interpolation_type := it; upsample := false; scale_factor := 1 |} input x y c).
Proof.
  split.
  - apply orders_same_tables.
  - intros it input x y c. unfold output; simpl. f_equal.
    rewrite orders_same_tables. apply down_resized_x_congr; reflexivity.
Qed.

(** ** Evaluating the pipeline on small inputs *)

Lemma sum_taps_1 (f : Z -> R) : sum_taps 1 f = f 0%Z.
Proof. unfold sum_taps. simpl. ring. Qed.

Lemma sum_taps_2 (f : Z -> R) : sum_taps 2 f = f 0%Z + f 1%Z.
Proof. unfold sum_taps. simpl. ring. Qed.

Lemma kernel_box_in (t : R) : Rabs t <= 1/2 -> kernel_box t = 1.
Proof. intros H. unfold kernel_box; cbv zeta. destruct (Rle_dec (Rabs t) (1/2)); lra. Qed.

Lemma Rabs_le_between (t b : R) : - b <= t <= b -> Rabs t <= b.
Proof. intros H. unfold Rabs. destruct (Rcase_abs t); lra. Qed.

(** A one-tap table puts weight [1] on [begin]. *)
Lemma single_tap_pass (g : Resize) (x : Z) (F : Z -> R) :
  kernel_taps g = 1%Z -> unnormalized_kernel g x 0 <> 0 ->
  sum_taps (kernel_taps g) (fun r => kernel_w g x r * F (r + begin g x)%Z) = F (begin g x).
Proof.
  intros Ht Hu. rewrite Ht, sum_taps_1. unfold kernel_w, kernel_sum.
  rewrite Ht, sum_taps_1, Z.add_0_l. field. exact Hu.
Qed.

Lemma box_scale2_table (up : bool) (o : Z) :
  (0 <= o < 4)%Z ->
  let g := {| interpolation_type := Box; upsample := up; scale_factor := 2 |} in
  kernel_taps g = 1%Z /\ begin g o = (o / 2)%Z /\ unnormalized_kernel g o 0 = 1.
Proof.
  intros Ho g.
  assert (Ht : kernel_taps g = 1%Z).
  { unfold kernel_taps, kernel_scaling, info; simpl.
    apply Rceil_unique. destruct up; simpl; lra. }
  assert (Hb : begin g o = (o / 2)%Z).
  { unfold begin, source, kernel_radius, kernel_scaling, info; simpl.
    assert (Hc : o = 0%Z \/ o = 1%Z \/ o = 2%Z \/ o = 3%Z) by lia.
    destruct Hc as [-> | [-> | [-> | ->]]]; eval_rhs_Z;
      apply Rceil_unique; destruct up; simpl; lra. }
  split; [exact Ht | split; [exact Hb|]].
  unfold unnormalized_kernel. rewrite Hb.
  unfold source, kernel_scaling, info; simpl.
  apply kernel_box_in, Rabs_le_between.
  assert (Hc : o = 0%Z \/ o = 1%Z \/ o = 2%Z \/ o = 3%Z) by lia.
  destruct Hc as [-> | [-> | [-> | ->]]]; eval_IZR_div; destruct up; simpl; lra.
Qed.

(** ** C9: box upscaling of [[0,1],[1,0]] by 2 *)

(** C9: the box kernel with [scale_factor = 2] maps the 2×2 image
    [[0,1],[1,0]] to the 4×4 image whose 2×2 blocks are the input pixels:
    output [(x, y)] is input [(x / 2, y / 2)] for [x, y] in [[0, 4)].  This
    holds with [upsample] set (the configuration of the scenario) and,
    as it happens, also without it. *)
Theorem box_upscale_checker (up : bool) (x y : Z) :
  (0 <= x < 4)%Z -> (0 <= y < 4)%Z ->
  output {| interpolation_type := Box; upsample := up; scale_factor := 2 |}
         checker2x2 x y 0 = data checker2x2 (x / 2) (y / 2) 0.
Proof.
  intros Hx Hy.
  set (g := {| interpolation_type := Box; upsample := up; scale_factor := 2 |}).
  destruct (box_scale2_table up x Hx) as [Ht [Hbx Hux]].
  destruct (box_scale2_table up y Hy) as [_ [Hby Huy]].
  fold g in Ht, Hbx, Hux, Hby, Huy.
  assert (Hu1 : forall z, z = 1 -> z <> 0) by (intros z ->; lra).
  assert (Cl : clamped checker2x2 (x / 2) (y / 2) 0 = data checker2x2 (x / 2) (y / 2) 0).
  { unfold clamped. rewrite !repeat_edge_coord_in;
      cbn [x_min x_extent y_min y_extent checker2x2];
      [reflexivity | Z.div_mod_to_equations; lia | Z.div_mod_to_equations; lia]. }
  assert (V : 0 <= data checker2x2 (x / 2) (y / 2) 0 <= 1)
    by (simpl; destruct (_ =? _)%Z; lra).
  unfold output. destruct (upsample g) eqn:Hup.
  - unfold up_resized_y, kernel_y, beginy.
    rewrite (single_tap_pass g y (fun j => up_resized_x g checker2x2 x j 0) Ht (Hu1 _ Huy)).
    unfold up_resized_x, kernel_x, beginx.
    rewrite (single_tap_pass g x (fun i => clamped checker2x2 i (begin g y) 0) Ht (Hu1 _ Hux)).
    rewrite Hbx, Hby, Cl. apply clampR_id. exact V.
  - unfold down_resized_x, kernel_x, beginx.
    rewrite (single_tap_pass g x (fun i => down_resized_y g checker2x2 i y 0) Ht (Hu1 _ Hux)).
    unfold down_resized_y, kernel_y, beginy.
    rewrite (single_tap_pass g y (fun j => clamped checker2x2 (begin g x) j 0) Ht (Hu1 _ Huy)).
    rewrite Hbx, Hby, Cl. apply clampR_id. exact V.
Qed.

(** ** C4: the [upsample] flag also changes the tables *)

Lemma box_half_up_table :
  let g := {| interpolation_type := Box; upsample := true; scale_factor := 1/2 |} in
  kernel_taps g = 1%Z /\ begin g 0 = 0%Z /\ unnormalized_kernel g 0 0 = 1.
Proof.
  intros g.
  assert (Ht : kernel_taps g = 1%Z).
  { unfold kernel_taps, kernel_scaling, info; simpl. apply Rceil_unique. lra. }
  assert (Hb : begin g 0 = 0%Z).
  { unfold begin, source, kernel_radius, kernel_scaling, info; simpl.
    apply Rceil_unique. lra. }
  split; [exact Ht | split; [exact Hb|]].
  unfold unnormalized_kernel. rewrite Hb. unfold source, kernel_scaling, info; simpl.
  apply kernel_box_in, Rabs_le_between. lra.
Qed.

Lemma box_half_down_table :
  let g := {| interpolation_type := Box; upsample := false; scale_factor := 1/2 |} in
  kernel_taps g = 2%Z /\ begin g 0 = 0%Z /\
  kernel_w g 0 0 = 1/2 /\ kernel_w g 0 1 = 1/2.
Proof.
  intros g.
  assert (Ht : kernel_taps g = 2%Z).
  { unfold kernel_taps, kernel_scaling, info; simpl. apply Rceil_unique. lra. }
  assert (Hb : begin g 0 = 0%Z).
  { unfold begin, source, kernel_radius, kernel_scaling, info; simpl.
    apply Rceil_unique. lra. }
  assert (Hu : forall k, (k = 0 \/ k = 1)%Z -> unnormalized_kernel g 0 k = 1).
  { intros k Hk. unfold unnormalized_kernel. rewrite Hb.
    unfold source, kernel_scaling, info; simpl.
    apply kernel_box_in, Rabs_le_between.
    destruct Hk as [-> | ->]; simpl; lra. }
  assert (Hs : kernel_sum g 0 = 2).
  { unfold kernel_sum. rewrite Ht, sum_taps_2, !Hu by lia. ring. }
  unfold kernel_w. rewrite Hs, !Hu by lia. repeat split; auto; field.
Qed.

(** C4 (counterexample): the pipelines built with and without [upsample]
    differ: on the row [[0, 1]], box kernel, [scale_factor = 1/2], the
    output at [(0, 0, 0)] is [0] with [upsample] (kernel_scaling 1, one
    tap) and [1/2] without it (kernel_scaling 1/2, two taps). *)
Lemma order_flag_changes_output :
  output {| interpolation_type := Box; upsample := true; scale_factor := 1/2 |}
         step_row 0 0 0 = 0 /\
  output {| interpolation_type := Box; upsample := false; scale_factor := 1/2 |}
         step_row 0 0 0 = 1/2 /\
  output {| interpolation_type := Box; upsample := true; scale_factor := 1/2 |}
         step_row 0 0 0 <>
  output {| interpolation_type := Box; upsample := false; scale_factor := 1/2 |}
         step_row 0 0 0.
Proof.
  set (gu := {| interpolation_type := Box; upsample := true; scale_factor := 1/2 |}).
  set (gd := {| interpolation_type := Box; upsample := false; scale_factor := 1/2 |}).
  assert (Eu : output gu step_row 0 0 0 = 0).
  { destruct box_half_up_table as [Ht [Hb Hu]]. fold gu in Ht, Hb, Hu.
    assert (Hu0 : unnormalized_kernel gu 0 0 <> 0) by (rewrite Hu; lra).
    unfold output; simpl. unfold up_resized_y, kernel_y, beginy.
    rewrite (single_tap_pass gu 0 (fun j => up_resized_x gu step_row 0 j 0) Ht Hu0).
    unfold up_resized_x, kernel_x, beginx.
    rewrite (single_tap_pass gu 0 (fun i => clamped step_row i (begin gu 0) 0) Ht Hu0).
    rewrite Hb. unfold clamped, repeat_edge_coord; simpl. apply clampR_id. lra. }
  assert (Ed : output gd step_row 0 0 0 = 1/2).
  { destruct box_half_down_table as [Ht [Hb [W0 W1]]]. fold gd in Ht, Hb, W0, W1.
    unfold output; simpl. unfold down_resized_x, down_resized_y, kernel_x, kernel_y, beginx, beginy.
    rewrite Ht, !sum_taps_2, Hb, W0, W1.
    unfold clamped, repeat_edge_coord; simpl. rewrite clampR_id; lra. }
  rewrite Eu, Ed. repeat split; lra.
Qed.

(** ** C2 / C6: a zero kernel sum without [upsample] and with [scale_factor > 1] *)

Lemma box_quarter_table :
  let g := {| interpolation_type := Box; upsample := false; scale_factor := 4 |} in
  kernel_taps g = 1%Z /\ begin g 0 = 0%Z /\ unnormalized_kernel g 0 0 = 0 /\
  kernel_sum g 0 = 0.
Proof.
  intros g.
  assert (Ht : kernel_taps g = 1%Z).
  { unfold kernel_taps, kernel_scaling, info; simpl. apply Rceil_unique. lra. }
  assert (Hb : begin g 0 = 0%Z).
  { unfold begin, source, kernel_radius, kernel_scaling, info; simpl.
    apply Rceil_unique. lra. }
  assert (Hu : unnormalized_kernel g 0 0 = 0).
  { unfold unnormalized_kernel. rewrite Hb. unfold source, kernel_scaling, info; simpl.
    unfold kernel_box; cbv zeta. rewrite Rabs_right by lra.
    destruct (Rle_dec _ (1/2)); [lra | reflexivity]. }
  unfold kernel_sum. rewrite Ht, sum_taps_1, Hu. auto.
Qed.

(** C6 (counterexample): box kernel, [upsample = false],
    [scale_factor = 4], output coordinate [0]: the only tap is evaluated at
    offset [3/2], outside the box, and the kernel sum is [0]. *)
Lemma kernel_sum_zero_box_quarter :
  kernel_sum {| interpolation_type := Box; upsample := false; scale_factor := 4 |} 0 = 0.
Proof. destruct box_quarter_table as [_ [_ [_ H]]]. exact H. Qed.

(** C2 (counterexample): at the same configuration the normalised weights
    do not sum to [1] (the division is [0/0]: [0] on the reals, NaN in
    floating point). *)
Lemma normalized_sum_not_one_box_quarter :
  let g := {| interpolation_type := Box; upsample := false; scale_factor := 4 |} in
  sum_taps (kernel_taps g) (kernel_w g 0) <> 1.
Proof.
  intros g. destruct box_quarter_table as [Ht [_ [Hu Hs]]]. fold g in Ht, Hu, Hs.
  rewrite Ht, sum_taps_1. unfold kernel_w. rewrite Hu, Hs. unfold Rdiv. rewrite Rmult_0_l. lra.
Qed.

(** ** More on finite sums *)

Lemma sum_rdom_minus (n : nat) (f g : Z -> R) :
  sum_rdom n (fun k => f k - g k) = sum_rdom n f - sum_rdom n g.
Proof. induction n as [|n IH]; simpl; [lra|]. rewrite IH. lra. Qed.

Lemma sum_rdom_le (n : nat) (f g : Z -> R) :
  (forall k, (0 <= k < Z.of_nat n)%Z -> f k <= g k) ->
  sum_rdom n f <= sum_rdom n g.
Proof.
  induction n as [|n IH]; intros H; simpl; [lra|].
  assert (f (Z.of_nat n) <= g (Z.of_nat n)) by (apply H; lia).
  assert (sum_rdom n f <= sum_rdom n g) by (apply IH; intros k Hk; apply H; lia).
  lra.
Qed.

Lemma sum_rdom_shift_down1 (n : nat) (f : Z -> R) :
  sum_rdom (S n) (fun k => f (k - 1)%Z) = f (-1)%Z + sum_rdom n f.
Proof.
  induction n as [|n IH].
  - simpl. lra.
  - change (sum_rdom (S (S n)) (fun k => f (k - 1)%Z))
      with (sum_rdom (S n) (fun k => f (k - 1)%Z) + f (Z.of_nat (S n) - 1)%Z).
    rewrite IH. replace (Z.of_nat (S n) - 1)%Z with (Z.of_nat n) by lia. simpl. lra.
Qed.

Lemma sum_rdom_shift_up1 (n : nat) (f : Z -> R) :
  sum_rdom n (fun k => f (k + 1)%Z) = sum_rdom (S n) f - f 0%Z.
Proof.
  induction n as [|n IH].
  - simpl. lra.
  - change (sum_rdom (S n) (fun k => f (k + 1)%Z))
      with (sum_rdom n (fun k => f (k + 1)%Z) + f (Z.of_nat n + 1)%Z).
    rewrite IH. replace (Z.of_nat n + 1)%Z with (Z.of_nat (S n)) by lia.
    change (sum_rdom (S (S n)) f) with (sum_rdom (S n) f + f (Z.of_nat (S n))). lra.
Qed.

(** Shifting a nonnegative table that vanishes below [0] towards higher
    indices loses its top entries: the sum can only decrease. *)
Lemma sum_rdom_shift_down_le (n : nat) (m : Z) (f : Z -> R) :
  (0 <= m)%Z ->
  (forall j, (j < 0)%Z -> f j = 0) ->
  (forall j, (0 <= j < Z.of_nat n)%Z -> 0 <= f j) ->
  sum_rdom n (fun k => f (k - m)%Z) <= sum_rdom n f.
Proof.
  intros Hm H0 Hpos. rewrite <- (Z2Nat.id m Hm). induction (Z.to_nat m) as [|m' IH].
  - apply Req_le, sum_rdom_ext. intros k _. f_equal. lia.
  - apply Rle_trans with (sum_rdom n (fun k => f (k - Z.of_nat m')%Z)); [|exact IH].
    destruct n as [|n]; [simpl; lra|].
    pose proof (sum_rdom_shift_down1 n (fun j => f (j - Z.of_nat m')%Z)) as Hsh.
    cbv beta in Hsh.
    rewrite (sum_rdom_ext (S n) _ (fun k => f (k - 1 - Z.of_nat m')%Z))
      by (intros k _; f_equal; lia).
    rewrite Hsh. rewrite H0 by lia.
    simpl sum_rdom at 2.
    assert (0 <= f (Z.of_nat n - Z.of_nat m')%Z).
    { destruct (Z_lt_le_dec (Z.of_nat n - Z.of_nat m') 0).
      - rewrite H0 by lia. lra.
      - apply Hpos. lia. }
    lra.
Qed.

(** Shifting a nonnegative table that vanishes from [n] on towards lower
    indices loses its bottom entries. *)
Lemma sum_rdom_shift_up_le (n : nat) (m : Z) (f : Z -> R) :
  (0 <= m)%Z ->
  (forall j, (Z.of_nat n <= j)%Z -> f j = 0) ->
  (forall j, (0 <= j < Z.of_nat n)%Z -> 0 <= f j) ->
  sum_rdom n (fun k => f (k + m)%Z) <= sum_rdom n f.
Proof.
  intros Hm H0 Hpos. rewrite <- (Z2Nat.id m Hm). induction (Z.to_nat m) as [|m' IH].
  - apply Req_le, sum_rdom_ext. intros k _. f_equal. lia.
  - apply Rle_trans with (sum_rdom n (fun k => f (k + Z.of_nat m')%Z)); [|exact IH].
    pose proof (sum_rdom_shift_up1 n (fun j => f (j + Z.of_nat m')%Z)) as Hsh.
    cbv beta in Hsh.
    rewrite (sum_rdom_ext n _ (fun k => f (k + 1 + Z.of_nat m')%Z))
      by (intros k _; f_equal; lia).
    rewrite Hsh. simpl sum_rdom at 1.
    rewrite (H0 (Z.of_nat n + Z.of_nat m')%Z) by lia.
    assert (0 <= f (0 + Z.of_nat m')%Z).
    { destruct (Z_lt_le_dec (0 + Z.of_nat m') (Z.of_nat n)).
      - apply Hpos. lia.
      - rewrite H0 by lia. lra. }
    lra.
Qed.

Lemma sum_rdom_atmostone (n : nat) (f : Z -> R) (M : R) :
  0 <= M ->
  (forall k, (0 <= k < Z.of_nat n)%Z -> 0 <= f k <= M) ->
  (forall k k', (0 <= k < Z.of_nat n)%Z -> (0 <= k' < Z.of_nat n)%Z ->
     f k <> 0 -> f k' <> 0 -> k = k') ->
  sum_rdom n f <= M.
Proof.
  induction n as [|n IH]; intros HM Hb Hu; simpl; [lra|].
  destruct (Req_dec (f (Z.of_nat n)) 0) as [E|E].
  - rewrite E, Rplus_0_r. apply IH; auto.
    + intros k Hk. apply Hb. lia.
    + intros k k' Hk Hk'. apply Hu; lia.
  - rewrite sum_rdom_zero.
    + assert (f (Z.of_nat n) <= M) by (apply Hb; lia). lra.
    + intros k Hk. destruct (Req_dec (f k) 0) as [E'|E']; [exact E'|].
      assert (k = Z.of_nat n) by (apply Hu; auto; lia). lia.
Qed.

Lemma sum_rdom_ge_one (n : nat) (f : Z -> R) (d : Z) :
  (0 <= d < Z.of_nat n)%Z ->
  (forall k, (0 <= k < Z.of_nat n)%Z -> 0 <= f k) ->
  f d <= sum_rdom n f.
Proof.
  intros Hd Hpos.
  apply Rle_trans with (sum_rdom n (fun k => if Z.eq_dec k d then f k else 0)).
  - rewrite (sum_rdom_single _ _ d Hd).
    + destruct (Z.eq_dec d d) as [_|N]; [lra|congruence].
    + intros k _ Hk. destruct (Z.eq_dec k d); [contradiction|reflexivity].
  - apply sum_rdom_le. intros k Hk. destruct (Z.eq_dec k d); [lra|apply Hpos; auto].
Qed.

Lemma sum_rdom_ge_three (n : nat) (f : Z -> R) (d1 d2 d3 : Z) :
  (0 <= d1 < Z.of_nat n)%Z -> (0 <= d2 < Z.of_nat n)%Z -> (0 <= d3 < Z.of_nat n)%Z ->
  d1 <> d2 -> d1 <> d3 -> d2 <> d3 ->
  (forall k, (0 <= k < Z.of_nat n)%Z -> 0 <= f k) ->
  f d1 + f d2 + f d3 <= sum_rdom n f.
Proof.
  intros H1 H2 H3 N12 N13 N23 Hpos.
  set (sel d := fun k => if Z.eq_dec k d then f k else 0).
  assert (Hs : forall d, (0 <= d < Z.of_nat n)%Z -> sum_rdom n (sel d) = f d).
  { intros d Hd. unfold sel. rewrite (sum_rdom_single _ _ d Hd).
    - destruct (Z.eq_dec d d); [reflexivity|congruence].
    - intros k _ Hk. destruct (Z.eq_dec k d); [contradiction|reflexivity]. }
  rewrite <- (Hs d1 H1), <- (Hs d2 H2), <- (Hs d3 H3), <- !sum_rdom_plus.
  apply sum_rdom_le. intros k Hk. unfold sel.
  destruct (Z.eq_dec k d1), (Z.eq_dec k d2), (Z.eq_dec k d3); subst;
    try congruence; try (pose proof (Hpos _ Hk)); lra.
Qed.

(** ** The sinc quotient on [(0, π]] *)

Lemma sin_minus_xcos_nonneg (x : R) : 0 <= x <= PI -> x * cos x <= sin x.
Proof.
  intros [H0 H1]. destruct (Req_dec x 0) as [->|Hx].
  { rewrite sin_0; lra. }
  destruct (MVT_cor2 (fun u => sin u - u * cos u) (fun u => u * sin u) 0 x)
    as [c [Hc1 Hc2]]; [lra| |].
  { intros c _.
    replace (c * sin c) with (cos c - (1 * cos c + c * (- sin c))) by ring.
    apply derivable_pt_lim_minus; [apply derivable_pt_lim_sin|].
    apply derivable_pt_lim_mult; [apply derivable_pt_lim_id|apply derivable_pt_lim_cos]. }
  rewrite sin_0, Rmult_0_l in Hc1.
  assert (0 <= sin c) by (apply sin_ge_0; lra).
  assert (0 <= c * sin c * x) by (repeat apply Rmult_le_pos; lra).
  lra.
Qed.

Lemma sinc_decreasing (x y : R) : 0 < x -> x <= y -> y <= PI -> sin y / y <= sin x / x.
Proof.
  intros Hx Hxy Hy. destruct (Req_dec x y) as [->|Hne]; [lra|].
  destruct (MVT_cor2 (fun u => sin u / u) (fun u => (cos u * u - 1 * sin u) / u²) x y)
    as [c [Hc1 Hc2]]; [lra| |].
  { intros c Hc. apply (derivable_pt_lim_div sin id);
      [apply derivable_pt_lim_sin|apply derivable_pt_lim_id|unfold id; lra]. }
  assert (c * cos c <= sin c) by (apply sin_minus_xcos_nonneg; lra).
  assert ((cos c * c - 1 * sin c) / c² <= 0).
  { assert (0 < / c²) by (apply Rinv_0_lt_compat; unfold Rsqr; nra).
    unfold Rdiv. nra. }
  simpl in Hc1.
  assert (0 <= - ((cos c * c - 1 * sin c) / c²) * (y - x)) by (apply Rmult_le_pos; lra).
  lra.
Qed.


(** ** Lattice sums of a kernel with a negative lobe on [1 <= |t| < 2] *)

Section Lattice.

Variable K : R -> R.
Variable c : R.
Hypothesis K_even : forall t, K (- t) = K t.
Hypothesis K_center : forall t, Rabs t < 1 -> 0 <= K t.
Hypothesis K_far : forall t, 2 <= Rabs t -> 0 <= K t.
Hypothesis K_pair : forall t p, 1 <= t < 2 -> 0 < p <= t - 1 -> - (c * K p) <= K t.
Hypothesis c_range : 0 <= c <= 1.

Variables (h e : R) (N : nat).
Hypothesis h_range : 0 < h <= 1.
Hypothesis e_low : e <= -1.
Hypothesis e_high : 1 <= e + IZR (Z.of_nat N) * h.

Local Abbreviation pt := (pt h e).
Local Abbreviation lattice_m := (lattice_m h).
Local Abbreviation Kneg := (Kneg K).
Local Abbreviation cen := (cen K h e).
Local Abbreviation cen_pos := (cen_pos K h e).
Local Abbreviation cen_neg := (cen_neg K h e).
Local Abbreviation exc_r := (exc_r K h e).
Local Abbreviation exc_l := (exc_l K h e).
Local Abbreviation cen_rest := (cen_rest K c h e).

Lemma lattice_m_spec : 1 <= IZR lattice_m * h < 1 + h.
Proof.
  unfold lattice_m. destruct (Rceil_spec (1 / h)) as [H1 H2].
  split.
  - apply (Rmult_le_compat_r h) in H2; [|lra].
    replace (1 / h * h) with 1 in H2 by (field; lra). lra.
  - apply (Rmult_lt_compat_r h) in H1; [|lra].
    replace (1 / h * h) with 1 in H1 by (field; lra). lra.
Qed.

Lemma lattice_m_nonneg : (0 <= lattice_m)%Z.
Proof.
  destruct lattice_m_spec as [H _]. apply le_IZR.
  destruct (Rle_or_lt 0 (IZR lattice_m)) as [P|P]; [exact P|nra].
Qed.

Lemma pt_sub (k j : Z) : pt (k - j) = pt k - IZR j * h.
Proof. unfold pt. rewrite minus_IZR. ring. Qed.

Lemma pt_add (k j : Z) : pt (k + j) = pt k + IZR j * h.
Proof. unfold pt. rewrite plus_IZR. ring. Qed.

Lemma pt_lt_iff (k j : Z) : pt k < pt j -> (k < j)%Z.
Proof.
  unfold pt. intros H. apply lt_IZR.
  apply (Rmult_lt_reg_r h); lra.
Qed.

Lemma pt_0 : pt 0 = e.
Proof. unfold pt. ring. Qed.

Lemma Kneg_nonneg (t : R) : 0 <= Kneg t.
Proof. unfold Kneg. apply Rmax_l. Qed.

Lemma Kneg_ge (t : R) : - Kneg t <= K t.
Proof. unfold Kneg. pose proof (Rmax_r 0 (- K t)). lra. Qed.

Lemma cen_pos_nonneg (k : Z) : 0 <= cen_pos k.
Proof.
  unfold cen_pos. destruct (Rlt_dec 0 (pt k)); [|lra].
  destruct (Rlt_dec (pt k) 1); [|lra]. apply K_center. apply Rabs_def1; lra.
Qed.

Lemma cen_neg_nonneg (k : Z) : 0 <= cen_neg k.
Proof.
  unfold cen_neg. destruct (Rlt_dec (pt k) 0); [|lra].
  destruct (Rlt_dec (-1) (pt k)); [|lra]. apply K_center. apply Rabs_def1; lra.
Qed.

Lemma K_pair_neg (t p : R) : -2 < t <= -1 -> t + 1 <= p < 0 -> - (c * K p) <= K t.
Proof.
  intros Ht Hp. rewrite <- (K_even t), <- (K_even p). apply K_pair; lra.
Qed.

Lemma lattice_pointwise (k : Z) :
  cen k - c * cen_pos (k - lattice_m) - c * cen_neg (k + lattice_m)
    - exc_r k - exc_l k <= K (pt k).
Proof.
  destruct lattice_m_spec as [Hm1 Hm2].
  pose proof (cen_pos_nonneg (k - lattice_m)) as P1.
  pose proof (cen_neg_nonneg (k + lattice_m)) as P2.
  assert (0 <= c * cen_pos (k - lattice_m)) by (apply Rmult_le_pos; lra).
  assert (0 <= c * cen_neg (k + lattice_m)) by (apply Rmult_le_pos; lra).
  unfold cen, exc_r, exc_l.
  destruct (Rlt_dec (Rabs (pt k)) 1) as [Hin|Hout].
  - apply Rabs_def2 in Hin.
    assert (cen_pos (k - lattice_m) = 0) as ->.
    { unfold cen_pos. rewrite pt_sub. destruct (Rlt_dec 0 _); [lra|reflexivity]. }
    assert (cen_neg (k + lattice_m) = 0) as ->.
    { unfold cen_neg. rewrite pt_add. destruct (Rlt_dec _ 0); [lra|reflexivity]. }
    destruct (Rle_dec 1 (pt k)); [lra|]. destruct (Rle_dec (pt k) (-1)); [lra|]. lra.
  - assert (Hab : 1 <= pt k \/ pt k <= -1).
    { destruct (Rle_or_lt 0 (pt k)).
      - rewrite Rabs_right in Hout by lra. lra.
      - rewrite Rabs_left in Hout by lra. lra. }
    destruct Hab as [Hr|Hl].
    + assert (cen_neg (k + lattice_m) = 0) as ->.
      { unfold cen_neg. rewrite pt_add. destruct (Rlt_dec _ 0); [lra|reflexivity]. }
      destruct (Rle_dec 1 (pt k)) as [_|N1]; [|lra].
      destruct (Rle_dec (pt k) (-1)) as [|_]; [lra|].
      destruct (Rle_dec (pt k) (IZR lattice_m * h)) as [Hx|Hx].
      * pose proof (Kneg_ge (pt k)). lra.
      * destruct (Rlt_dec (pt k) 2) as [H2|H2].
        { unfold cen_pos. rewrite pt_sub.
          destruct (Rlt_dec 0 _) as [_|N0]; [|lra].
          destruct (Rlt_dec _ 1) as [_|N0]; [|lra].
          pose proof (K_pair (pt k) (pt k - IZR lattice_m * h)). lra. }
        { assert (0 <= K (pt k)) by (apply K_far; rewrite Rabs_right; lra). lra. }
    + assert (cen_pos (k - lattice_m) = 0) as ->.
      { unfold cen_pos. rewrite pt_sub. destruct (Rlt_dec 0 _); [lra|reflexivity]. }
      destruct (Rle_dec 1 (pt k)) as [|_]; [lra|].
      destruct (Rle_dec (pt k) (-1)) as [_|N1]; [|lra].
      destruct (Rle_dec (- (IZR lattice_m * h)) (pt k)) as [Hx|Hx].
      * pose proof (Kneg_ge (pt k)). lra.
      * destruct (Rlt_dec (-2) (pt k)) as [H2|H2].
        { unfold cen_neg. rewrite pt_add.
          destruct (Rlt_dec _ 0) as [_|N0]; [|lra].
          destruct (Rlt_dec (-1) _) as [_|N0]; [|lra].
          pose proof (K_pair_neg (pt k) (pt k + IZR lattice_m * h)). lra. }
        { assert (0 <= K (pt k)) by (apply K_far; rewrite Rabs_left; lra). lra. }
Qed.

(** The lattice sum is at least the centre taps, each reduced by the
    share [c] its negative-lobe partner takes, minus the (at most one per
    side) lobe taps too close to the centre to have a partner. *)
Lemma lattice_lower :
  sum_rdom N cen_rest - sum_rdom N exc_r - sum_rdom N exc_l
    <= sum_rdom N (fun k => K (pt k)).
Proof.
  pose proof lattice_m_nonneg as Hm0.
  apply Rle_trans with
    (sum_rdom N (fun k => cen k - c * cen_pos (k - lattice_m) - c * cen_neg (k + lattice_m)
       - exc_r k - exc_l k)).
  2: { apply sum_rdom_le. intros k _. apply lattice_pointwise. }
  rewrite !sum_rdom_minus, !sum_rdom_scal.
  unfold cen_rest. rewrite !sum_rdom_minus, !sum_rdom_scal.
  assert (sum_rdom N (fun k => cen_pos (k - lattice_m)%Z) <= sum_rdom N cen_pos).
  { apply sum_rdom_shift_down_le; [exact Hm0| |intros; apply cen_pos_nonneg].
    intros j Hj. unfold cen_pos.
    assert (pt j < e).
    { unfold pt. assert (IZR j <= -1) by (apply IZR_le; lia). nra. }
    destruct (Rlt_dec 0 (pt j)); [lra|reflexivity]. }
  assert (sum_rdom N (fun k => cen_neg (k + lattice_m)%Z) <= sum_rdom N cen_neg).
  { apply sum_rdom_shift_up_le; [exact Hm0| |intros; apply cen_neg_nonneg].
    intros j Hj. unfold cen_neg.
    assert (pt (Z.of_nat N) <= pt j).
    { unfold pt. apply IZR_le in Hj. nra. }
    unfold pt at 1 in H0. destruct (Rlt_dec (pt j) 0); [unfold pt in *; lra|reflexivity]. }
  nra.
Qed.

Lemma cen_rest_nonneg (k : Z) : 0 <= cen_rest k.
Proof.
  unfold cen_rest, cen, cen_pos, cen_neg.
  destruct (Rlt_dec (Rabs (pt k)) 1) as [H|H].
  - pose proof (K_center _ H). apply Rabs_def2 in H.
    destruct (Rlt_dec 0 (pt k)); destruct (Rlt_dec (pt k) 1); try lra;
    destruct (Rlt_dec (pt k) 0); destruct (Rlt_dec (-1) (pt k)); try lra; nra.
  - assert (Hab : 1 <= pt k \/ pt k <= -1).
    { destruct (Rle_or_lt 0 (pt k)).
      - rewrite Rabs_right in H by lra. lra.
      - rewrite Rabs_left in H by lra. lra. }
    destruct (Rlt_dec 0 (pt k)); destruct (Rlt_dec (pt k) 1);
    destruct (Rlt_dec (pt k) 0); destruct (Rlt_dec (-1) (pt k)); lra.
Qed.

Lemma cen_rest_at (k : Z) : Rabs (pt k) < 1 -> pt k <> 0 -> cen_rest k = (1 - c) * K (pt k).
Proof.
  intros H H0. unfold cen_rest, cen, cen_pos, cen_neg.
  destruct (Rlt_dec (Rabs (pt k)) 1) as [_|N0]; [|contradiction].
  apply Rabs_def2 in H.
  destruct (Rlt_dec 0 (pt k)); destruct (Rlt_dec (pt k) 1); try lra;
  destruct (Rlt_dec (pt k) 0); destruct (Rlt_dec (-1) (pt k)); try lra.
Qed.

Lemma cen_rest_at_0 (k : Z) : pt k = 0 -> cen_rest k = K 0.
Proof.
  intros H. unfold cen_rest, cen, cen_pos, cen_neg. rewrite H, Rabs_R0.
  destruct (Rlt_dec 0 1); [|lra]. destruct (Rlt_dec 0 0); [lra|].
  ring.
Qed.

Lemma cen_rest_ge (k : Z) : Rabs (pt k) < 1 -> (1 - c) * K (pt k) <= cen_rest k.
Proof.
  intros H. destruct (Req_dec (pt k) 0) as [E|E].
  - rewrite cen_rest_at_0 by exact E. rewrite E. pose proof (K_center 0).
    rewrite Rabs_R0 in H0. assert (0 <= K 0) by (apply H0; lra). nra.
  - rewrite cen_rest_at by assumption. lra.
Qed.

Lemma Kneg_le (t M : R) : 0 <= M -> - M <= K t -> Kneg t <= M.
Proof. intros H1 H2. unfold Kneg. apply Rmax_lub; lra. Qed.

Lemma Kneg_even (t : R) : Kneg (- t) = Kneg t.
Proof. unfold Kneg. rewrite K_even. reflexivity. Qed.

Lemma exc_unique (k k' : Z) :
  1 <= pt k <= IZR lattice_m * h -> 1 <= pt k' <= IZR lattice_m * h -> k = k'.
Proof.
  destruct lattice_m_spec. intros H1 H2.
  assert (-1 < IZR (k - k') < 1).
  { rewrite minus_IZR. unfold pt in *. split.
    - apply (Rmult_lt_reg_r h); lra.
    - apply (Rmult_lt_reg_r h); lra. }
  assert (-1 < k - k' < 1)%Z by (split; apply lt_IZR; lra). lia.
Qed.

Lemma exc_r_bound (M : R) :
  0 <= M ->
  (forall k, (0 <= k < Z.of_nat N)%Z -> 1 <= pt k <= IZR lattice_m * h -> Kneg (pt k) <= M) ->
  sum_rdom N exc_r <= M.
Proof.
  intros HM Hb. apply sum_rdom_atmostone; auto.
  - intros k Hk. unfold exc_r.
    destruct (Rle_dec 1 (pt k)); [|lra]. destruct (Rle_dec (pt k) _); [|lra].
    split; [apply Kneg_nonneg|]. apply Hb; auto.
  - intros k k' _ _. unfold exc_r.
    destruct (Rle_dec 1 (pt k)); [|lra]. destruct (Rle_dec (pt k) _); [|lra].
    destruct (Rle_dec 1 (pt k')); [|lra]. destruct (Rle_dec (pt k') _); [|lra].
    intros _ _. apply exc_unique; lra.
Qed.

Lemma exc_l_bound (M : R) :
  0 <= M ->
  (forall k, (0 <= k < Z.of_nat N)%Z -> - (IZR lattice_m * h) <= pt k <= -1 -> Kneg (pt k) <= M) ->
  sum_rdom N exc_l <= M.
Proof.
  intros HM Hb. apply sum_rdom_atmostone; auto.
  - intros k Hk. unfold exc_l.
    destruct (Rle_dec (pt k) (-1)); [|lra]. destruct (Rle_dec _ (pt k)); [|lra].
    split; [apply Kneg_nonneg|]. apply Hb; auto.
  - intros k k' _ _. unfold exc_l.
    destruct (Rle_dec (pt k) (-1)); [|lra]. destruct (Rle_dec _ (pt k)); [|lra].
    destruct (Rle_dec (pt k') (-1)); [|lra]. destruct (Rle_dec _ (pt k')); [|lra].
    intros _ _. destruct lattice_m_spec.
    assert (-1 < IZR (k - k') < 1).
    { rewrite minus_IZR. unfold pt in *. split.
      - apply (Rmult_lt_reg_r h); lra.
      - apply (Rmult_lt_reg_r h); lra. }
    assert (-1 < k - k' < 1)%Z by (split; apply lt_IZR; lra). lia.
Qed.

(** A tap within [h/2] of the centre. *)
Lemma lattice_center_tap :
  exists k, (0 <= k < Z.of_nat N)%Z /\ - (h / 2) <= pt k < h / 2.
Proof.
  exists (Rceil ((- (h / 2) - e) / h)).
  destruct (Rceil_spec ((- (h / 2) - e) / h)) as [H1 H2].
  set (q := Rceil ((- (h / 2) - e) / h)) in *.
  assert (Hlo : - (h / 2) <= pt q).
  { unfold pt. apply (Rmult_le_compat_r h) in H2; [|lra].
    replace ((- (h / 2) - e) / h * h) with (- (h / 2) - e) in H2 by (field; lra). lra. }
  assert (Hhi : pt q < h / 2).
  { unfold pt. apply (Rmult_lt_compat_r h) in H1; [|lra].
    replace ((- (h / 2) - e) / h * h) with (- (h / 2) - e) in H1 by (field; lra). lra. }
  split; [|lra]. split.
  - assert (pt 0 < pt q) by (rewrite pt_0; lra). apply pt_lt_iff in H. lia.
  - apply pt_lt_iff. unfold pt at 2. lra.
Qed.

End Lattice.


(** ** Analytic facts on the Lanczos kernel *)

Lemma Rabs_le_split (t b : R) : Rabs t <= b -> - b <= t <= b.
Proof.
  destruct (Rle_or_lt 0 t).
  - rewrite Rabs_right by lra. lra.
  - rewrite Rabs_left by lra. lra.
Qed.

Lemma frac_le (a b c d : R) : 0 < b -> 0 < d -> a * d <= c * b -> a / b <= c / d.
Proof.
  intros Hb Hd H.
  replace (a / b) with ((a * d) * / (b * d)) by (field; lra).
  replace (c / d) with ((c * b) * / (b * d)) by (field; lra).
  apply Rmult_le_compat_r; [left; apply Rinv_0_lt_compat; nra | exact H].
Qed.

Lemma kernel_lanczos_0 : kernel_lanczos 0 = 1.
Proof.
  unfold kernel_lanczos; cbv zeta.
  destruct (Rlt_dec 3 0); [lra|]. destruct (Rlt_dec 0 (-3)); [lra|].
  destruct (Req_dec_T 0 0); [reflexivity|congruence].
Qed.

Lemma kernel_lanczos_form (t : R) :
  t <> 0 -> Rabs t <= 3 ->
  kernel_lanczos t = 3 * sin (PI * t) * sin (PI * t / 3) / (t * t).
Proof.
  intros H0 H3. apply Rabs_le_split in H3.
  unfold kernel_lanczos, sinc; cbv zeta.
  destruct (Rlt_dec 3 t); [lra|]. destruct (Rlt_dec t (-3)); [lra|].
  destruct (Req_dec_T t 0); [contradiction|].
  replace (PI * (t / 3)) with (PI * t / 3) by field. field. auto.
Qed.

Lemma kernel_lanczos_even (t : R) : kernel_lanczos (- t) = kernel_lanczos t.
Proof.
  destruct (Req_dec t 0) as [->|H0]; [rewrite Ropp_0; reflexivity|].
  destruct (Rle_lt_dec 3 (Rabs t)) as [Ho|Hi].
  - rewrite !kernel_lanczos_outside; [reflexivity | exact Ho | rewrite Rabs_Ropp; exact Ho].
  - rewrite !kernel_lanczos_form; try lra; try (rewrite ?Rabs_Ropp; lra).
    replace (PI * - t) with (- (PI * t)) by ring.
    replace (- (PI * t) / 3) with (- (PI * t / 3)) by field.
    rewrite !sin_neg. field. auto.
Qed.

Lemma kernel_lanczos_abs (t : R) : kernel_lanczos (Rabs t) = kernel_lanczos t.
Proof.
  destruct (Rle_or_lt 0 t).
  - rewrite Rabs_right by lra. reflexivity.
  - rewrite Rabs_left by lra. apply kernel_lanczos_even.
Qed.

Lemma kernel_lanczos_sinc_form (t : R) :
  0 < t <= 3 ->
  kernel_lanczos t = PI ^ 2 * (sin (PI * t) / (PI * t)) * (sin (PI * t / 3) / (PI * t / 3)).
Proof.
  intros Ht. rewrite kernel_lanczos_form by (try lra; rewrite Rabs_right; lra).
  pose proof PI_RGT_0. field. lra.
Qed.

Lemma sinc_nonneg (u : R) : 0 < u <= PI -> 0 <= sin u / u.
Proof.
  intros Hu. unfold Rdiv. apply Rmult_le_pos.
  - apply sin_ge_0; lra.
  - left. apply Rinv_0_lt_compat. lra.
Qed.

(** On [(0, 1]] the Lanczos kernel is a product of two decreasing
    positive factors. *)
Lemma kernel_lanczos_mono (p v : R) :
  0 < p <= v -> v <= 1 -> kernel_lanczos v <= kernel_lanczos p.
Proof.
  intros Hp Hv. pose proof PI_RGT_0 as HPI.
  rewrite !kernel_lanczos_sinc_form by lra.
  assert (A1 : sin (PI * v) / (PI * v) <= sin (PI * p) / (PI * p)).
  { apply sinc_decreasing; [nra|nra|nra]. }
  assert (A2 : sin (PI * v / 3) / (PI * v / 3) <= sin (PI * p / 3) / (PI * p / 3)).
  { apply sinc_decreasing; [nra|nra|nra]. }
  assert (B1 : 0 <= sin (PI * v) / (PI * v)) by (apply sinc_nonneg; nra).
  assert (B2 : 0 <= sin (PI * v / 3) / (PI * v / 3)) by (apply sinc_nonneg; nra).
  assert (0 <= PI ^ 2) by (apply pow_le; lra).
  apply Rmult_le_compat; try assumption.
  - apply Rmult_le_pos; assumption.
  - apply Rmult_le_compat_l; assumption.
Qed.

Lemma kernel_lanczos_1 : kernel_lanczos 1 = 0.
Proof.
  rewrite kernel_lanczos_form by (try lra; rewrite Rabs_right; lra).
  rewrite Rmult_1_r, sin_PI. field.
Qed.

Lemma kernel_lanczos_half : kernel_lanczos (1 / 2) = 6.
Proof.
  rewrite kernel_lanczos_form by (try lra; rewrite Rabs_right; lra).
  replace (PI * (1 / 2)) with (PI / 2) by field.
  replace (PI / 2 / 3) with (PI / 6) by field.
  rewrite sin_PI2, sin_PI6. field.
Qed.

Lemma kernel_lanczos_ge_6 (t : R) : 0 < Rabs t <= 1 / 2 -> 6 <= kernel_lanczos t.
Proof.
  intros H. rewrite <- kernel_lanczos_abs, <- kernel_lanczos_half.
  apply kernel_lanczos_mono; lra.
Qed.

Lemma kernel_lanczos_center (t : R) : Rabs t < 1 -> 0 <= kernel_lanczos t.
Proof.
  intros H. destruct (Req_dec t 0) as [->|H0].
  - rewrite kernel_lanczos_0. lra.
  - rewrite <- kernel_lanczos_abs, <- kernel_lanczos_1.
    apply kernel_lanczos_mono; [split; [apply Rabs_pos_lt; exact H0|lra]|lra].
Qed.

Lemma kernel_lanczos_far (t : R) : 2 <= Rabs t -> 0 <= kernel_lanczos t.
Proof.
  intros H. rewrite <- kernel_lanczos_abs. set (u := Rabs t) in *.
  destruct (Rle_lt_dec 3 u) as [H3|H3].
  - rewrite kernel_lanczos_outside; [lra|]. unfold u. rewrite Rabs_Rabsolu. exact H3.
  - pose proof PI_RGT_0.
    rewrite kernel_lanczos_form by (try lra; rewrite Rabs_right; lra).
    assert (0 <= sin (PI * u)).
    { replace (PI * u) with (PI * (u - 2) + 2 * INR 1 * PI) by (simpl; ring).
      rewrite sin_period. apply sin_ge_0; nra. }
    assert (0 <= sin (PI * u / 3)) by (apply sin_ge_0; nra).
    unfold Rdiv. apply Rmult_le_pos; [|left; apply Rinv_0_lt_compat; nra].
    apply Rmult_le_pos; [|assumption]. lra.
Qed.

Lemma kernel_lanczos_lobe (v : R) :
  0 <= v < 1 ->
  kernel_lanczos (1 + v) =
    - (3 * sin (PI * v) * sin (PI * (1 + v) / 3) / ((1 + v) * (1 + v))).
Proof.
  intros Hv. rewrite kernel_lanczos_form by (try lra; rewrite Rabs_right; lra).
  replace (PI * (1 + v)) with (PI * v + PI) at 1 by ring. rewrite neg_sin.
  field. lra.
Qed.

Lemma kernel_lanczos_exc (t : R) : 1 <= Rabs t < 2 -> - (48 / 25) <= kernel_lanczos t.
Proof.
  intros H. rewrite <- kernel_lanczos_abs.
  replace (Rabs t) with (1 + (Rabs t - 1)) by ring.
  set (v := Rabs t - 1). assert (Hv : 0 <= v < 1) by (unfold v; lra).
  rewrite kernel_lanczos_lobe by exact Hv. pose proof PI_RGT_0. pose proof PI_4.
  set (S := sin (PI * v)). set (s := sin (PI * (1 + v) / 3)).
  assert (HS : 0 <= S <= 1).
  { unfold S. split; [apply sin_ge_0; nra|apply SIN_bound]. }
  assert (Hs : 0 <= s <= 1).
  { unfold s. split; [apply sin_ge_0; nra|apply SIN_bound]. }
  assert (HSv : S <= 4 * v).
  { destruct (Req_dec v 0) as [->|Hv0].
    - unfold S. rewrite Rmult_0_r, sin_0. lra.
    - unfold S. pose proof (sin_lt_x (PI * v)). assert (0 < PI * v) by nra. nra. }
  assert (3 * S * s <= 48 / 25 * ((1 + v) * (1 + v))).
  { assert (3 * S * s <= 3 * S) by nra.
    destruct (Rle_lt_dec v (1 / 4)); nra. }
  assert (3 * S * s / ((1 + v) * (1 + v)) <= 48 / 25).
  { replace (48 / 25) with ((48 / 25) / 1) by field.
    apply frac_le; nra. }
  lra.
Qed.

Lemma sqrt3_half_lb : 866 / 1000 <= sin (PI / 3).
Proof.
  rewrite sin_PI3.
  assert (1732 / 1000 <= sqrt 3).
  { rewrite <- (sqrt_square (1732 / 1000)) by lra. apply sqrt_le_1_alt. lra. }
  lra.
Qed.

(** A negative-lobe tap at [1 + v] weighs at most [29/100] of any centre
    tap at [p <= v]. *)
Lemma kernel_lanczos_pair (t p : R) :
  1 <= t < 2 -> 0 < p <= t - 1 ->
  - (29 / 100 * kernel_lanczos p) <= kernel_lanczos t.
Proof.
  intros Ht Hp. pose proof PI_RGT_0.
  set (v := t - 1). assert (Hv : 0 < v < 1) by (unfold v; lra).
  assert (Hm : kernel_lanczos v <= kernel_lanczos p) by (apply kernel_lanczos_mono; unfold v in *; lra).
  replace t with (1 + v) by (unfold v; ring).
  rewrite kernel_lanczos_lobe by lra.
  rewrite kernel_lanczos_form in Hm by (try lra; rewrite Rabs_right; lra).
  set (S := sin (PI * v)) in *. set (s := sin (PI * (1 + v) / 3)).
  set (w := sin (PI * v / 3)) in *.
  assert (HS : 0 <= S) by (unfold S; apply sin_ge_0; nra).
  assert (Hs : s <= 1) by (unfold s; apply SIN_bound).
  assert (Hs0 : 0 <= s) by (unfold s; apply sin_ge_0; nra).
  assert (Hw : 866 / 1000 * v <= w).
  { pose proof sqrt3_half_lb.
    pose proof (sinc_decreasing (PI * v / 3) (PI / 3)) as D.
    assert (D' : sin (PI / 3) / (PI / 3) <= w / (PI * v / 3)) by (apply D; nra).
    apply (Rmult_le_compat_r (PI * v / 3)) in D'; [|nra].
    replace (w / (PI * v / 3) * (PI * v / 3)) with w in D' by (field; lra).
    replace (sin (PI / 3) / (PI / 3) * (PI * v / 3)) with (sin (PI / 3) * v) in D'
      by (field; lra).
    assert (0 <= (sin (PI / 3) - 866 / 1000) * v) by (apply Rmult_le_pos; lra).
    lra. }
  assert (3 * S * s / ((1 + v) * (1 + v)) <= 29 / 100 * (3 * S * w) / (v * v)).
  { apply frac_le; try nra.
    assert (S * s <= S) by nra.
    assert (E1 : S * s * (v * v) <= S * (v * v)) by (apply Rmult_le_compat_r; nra).
    assert (E2 : v * v <= 29 / 100 * (866 / 1000 * v) * ((1 + v) * (1 + v))).
    { assert (0 <= v * (1 - v) * (1 - v)) by (apply Rmult_le_pos; nra).
      assert (0 <= v * v) by nra. lra. }
    assert (E3 : 866 / 1000 * v * ((1 + v) * (1 + v)) <= w * ((1 + v) * (1 + v)))
      by (apply Rmult_le_compat_r; nra).
    assert (E4 : S * (v * v) <= S * (29 / 100 * w * ((1 + v) * (1 + v))))
      by (apply Rmult_le_compat_l; lra).
    lra. }
  assert (29 / 100 * (3 * S * w) / (v * v) = 29 / 100 * (3 * S * w / (v * v))) by (field; lra).
  nra.
Qed.

Lemma kernel_lanczos_double (h : R) :
  0 < h < 3 / 2 ->
  kernel_lanczos (2 * h) = kernel_lanczos h * cos (PI * h) * cos (PI * h / 3).
Proof.
  intros Hh.
  rewrite !kernel_lanczos_form by (try lra; rewrite Rabs_right; lra).
  replace (PI * (2 * h)) with (2 * (PI * h)) by ring.
  replace (2 * (PI * h) / 3) with (2 * (PI * h / 3)) by field.
  rewrite !sin_2a. field. lra.
Qed.

Lemma inv_sqrt2_ub : 1 / sqrt 2 <= 71 / 100.
Proof.
  assert (141 / 100 <= sqrt 2).
  { rewrite <- (sqrt_square (141 / 100)) by lra. apply sqrt_le_1_alt. lra. }
  replace (71 / 100) with ((71 / 100) / 1) by field.
  apply frac_le; lra.
Qed.

Lemma kernel_lanczos_double_bound (h : R) :
  1 / 2 < h < 1 -> - (71 / 100 * kernel_lanczos h) <= kernel_lanczos (2 * h).
Proof.
  intros Hh. pose proof PI_RGT_0.
  assert (HK : 0 <= kernel_lanczos h) by (apply kernel_lanczos_center; rewrite Rabs_right; lra).
  rewrite kernel_lanczos_double by lra.
  set (C1 := cos (PI * h)). set (C3 := cos (PI * h / 3)).
  assert (H1 : -1 <= C1 <= 0).
  { split; [apply COS_bound|]. apply cos_le_0; nra. }
  assert (H3 : 0 <= C3 <= 1).
  { split; [apply cos_ge_0; nra|apply COS_bound]. }
  pose proof inv_sqrt2_ub.
  assert (HP : - (71 / 100) <= C1 * C3).
  { destruct (Rle_lt_dec h (3 / 4)).
    - assert (H4 : cos (3 * PI / 4) <= C1) by (apply cos_decr_1; nra).
      replace (3 * PI / 4) with (- (PI / 4) + PI) in H4 by field.
      rewrite neg_cos, cos_neg, cos_PI4 in H4. nra.
    - assert (H4 : C3 <= cos (PI / 4)) by (apply cos_decr_1; nra).
      rewrite cos_PI4 in H4. nra. }
  nra.
Qed.


(** ** Positivity of the kernel sums *)

Lemma kernel_cubic_abs (t : R) : kernel_cubic (Rabs t) = kernel_cubic t.
Proof. unfold kernel_cubic. rewrite Rabs_Rabsolu. reflexivity. Qed.

Lemma kernel_cubic_center (t : R) : Rabs t < 1 -> 0 <= kernel_cubic t.
Proof.
  intros H. rewrite <- kernel_cubic_abs.
  pose proof (Rabs_pos t). rewrite kernel_cubic_near by lra.
  set (u := Rabs t) in *.
  replace (3 / 2 * u ^ 3 + -5 / 2 * u ^ 2 + 0 * u + 1)
    with ((1 - u) * (1 + u - 3 / 2 * u ^ 2)) by field.
  apply Rmult_le_pos; [lra|]. nra.
Qed.

Lemma kernel_cubic_far_nonneg (t : R) : 2 <= Rabs t -> 0 <= kernel_cubic t.
Proof. intros H. rewrite kernel_cubic_out by exact H. lra. Qed.

Lemma kernel_cubic_lobe (v : R) :
  0 <= v < 1 -> kernel_cubic (1 + v) = - (1 / 2) * v * (1 - v) ^ 2.
Proof. intros Hv. rewrite kernel_cubic_far by lra. field. Qed.

Lemma kernel_cubic_exc (t : R) : 1 <= Rabs t < 2 -> - (2 / 27) <= kernel_cubic t.
Proof.
  intros H. rewrite <- kernel_cubic_abs.
  replace (Rabs t) with (1 + (Rabs t - 1)) by ring.
  set (v := Rabs t - 1). assert (Hv : 0 <= v < 1) by (unfold v; lra).
  rewrite kernel_cubic_lobe by exact Hv.
  assert (0 <= (v - 1 / 3) ^ 2 * (4 / 3 - v)) by (apply Rmult_le_pos; [apply pow2_ge_0|lra]).
  nra.
Qed.

Lemma kernel_cubic_pair (t p : R) :
  1 <= t < 2 -> 0 < p <= t - 1 -> - (1 / 4 * kernel_cubic p) <= kernel_cubic t.
Proof.
  intros Ht Hp. set (v := t - 1). assert (Hv : 0 < v < 1) by (unfold v; lra).
  replace t with (1 + v) by (unfold v; ring).
  rewrite kernel_cubic_lobe by lra. rewrite kernel_cubic_near by (unfold v in *; lra).
  assert (W1 : 1 / 2 * (1 - v) <= 3 / 2 * p ^ 3 + -5 / 2 * p ^ 2 + 0 * p + 1).
  { replace (3 / 2 * p ^ 3 + -5 / 2 * p ^ 2 + 0 * p + 1)
      with ((1 - p) * (1 + p - 3 / 2 * p ^ 2)) by field.
    assert (1 - v <= 1 - p) by (unfold v in *; lra).
    assert (1 / 2 <= 1 + p - 3 / 2 * p ^ 2) by (unfold v in *; nra).
    nra. }
  assert (W2 : v * (1 - v) ^ 2 <= 1 / 4 * (1 - v)).
  { assert (0 <= (v - 1 / 2) ^ 2) by apply pow2_ge_0.
    assert (v * (1 - v) <= 1 / 4) by lra.
    replace (v * (1 - v) ^ 2) with (v * (1 - v) * (1 - v)) by ring.
    apply Rmult_le_compat_r; lra. }
  lra.
Qed.

Lemma kernel_cubic_ge (t : R) : Rabs t <= 1 / 2 -> 9 / 16 <= kernel_cubic t.
Proof.
  intros H. rewrite <- kernel_cubic_abs.
  pose proof (Rabs_pos t). rewrite kernel_cubic_near by lra.
  set (u := Rabs t) in *.
  assert (0 <= (1 / 2 - u) * (7 / 8 + 7 / 4 * u - 3 / 2 * u ^ 2))
    by (apply Rmult_le_pos; nra).
  nra.
Qed.

Lemma kernel_cubic_lattice_pos (h e : R) (N : nat) :
  0 < h <= 1 -> e <= -1 -> 1 <= e + IZR (Z.of_nat N) * h ->
  0 < sum_rdom N (fun k => kernel_cubic (pt h e k)).
Proof.
  intros Hh He HN.
  assert (Hc : 0 <= 1 / 4 <= 1) by lra.
  pose proof (lattice_lower kernel_cubic (1 / 4) kernel_cubic_even kernel_cubic_center
    kernel_cubic_far_nonneg kernel_cubic_pair Hc h e N Hh He HN) as L.
  destruct (lattice_center_tap h e N Hh He HN) as [k [Hk Hpt]].
  pose proof (lattice_m_spec h Hh) as Hm.
  assert (S1 : cen_rest kernel_cubic (1 / 4) h e k <= sum_rdom N (cen_rest kernel_cubic (1 / 4) h e)).
  { apply sum_rdom_ge_one; [exact Hk|]. intros j _.
    apply cen_rest_nonneg; [exact kernel_cubic_center|exact Hc]. }
  assert (S2 : (1 - 1 / 4) * kernel_cubic (pt h e k) <= cen_rest kernel_cubic (1 / 4) h e k).
  { apply cen_rest_ge; [exact kernel_cubic_center|exact Hc|].
    apply Rabs_def1; lra. }
  assert (S3 : 9 / 16 <= kernel_cubic (pt h e k)) by (apply kernel_cubic_ge, Rabs_le; lra).
  assert (S4 : sum_rdom N (exc_r kernel_cubic h e) <= 2 / 27).
  { apply exc_r_bound; [exact Hh|lra|]. intros j _ Hj.
    apply Kneg_le; [lra|]. apply kernel_cubic_exc. rewrite Rabs_right; lra. }
  assert (S5 : sum_rdom N (exc_l kernel_cubic h e) <= 2 / 27).
  { apply exc_l_bound; [exact Hh|lra|]. intros j _ Hj.
    apply Kneg_le; [lra|]. apply kernel_cubic_exc. rewrite Rabs_left; lra. }
  lra.
Qed.

Lemma kernel_lanczos_lattice_pos (h e : R) (N : nat) :
  0 < h <= 1 -> e <= -1 -> 1 <= e + IZR (Z.of_nat N) * h ->
  0 < sum_rdom N (fun k => kernel_lanczos (pt h e k)).
Proof.
  intros Hh He HN.
  set (c := 29 / 100).
  assert (Hc : 0 <= c <= 1) by (unfold c; lra).
  pose proof (lattice_lower kernel_lanczos c kernel_lanczos_even kernel_lanczos_center
    kernel_lanczos_far kernel_lanczos_pair Hc h e N Hh He HN) as L.
  destruct (lattice_center_tap h e N Hh He HN) as [k [Hk Hpt]].
  pose proof (lattice_m_spec h Hh) as Hm.
  assert (Rnn : forall j, (0 <= j < Z.of_nat N)%Z -> 0 <= cen_rest kernel_lanczos c h e j).
  { intros j _. apply cen_rest_nonneg; [exact kernel_lanczos_center|exact Hc]. }
  assert (Er : sum_rdom N (exc_r kernel_lanczos h e) <= 48 / 25).
  { apply exc_r_bound; [exact Hh|lra|]. intros j _ Hj.
    apply Kneg_le; [lra|]. apply kernel_lanczos_exc. rewrite Rabs_right; lra. }
  assert (El : sum_rdom N (exc_l kernel_lanczos h e) <= 48 / 25).
  { apply exc_l_bound; [exact Hh|lra|]. intros j _ Hj.
    apply Kneg_le; [lra|]. apply kernel_lanczos_exc. rewrite Rabs_left; lra. }
  destruct (Req_dec (pt h e k) 0) as [Z0|Z0].
  2: {
    (* the centre tap is off [0]: it weighs at least [6] *)
    assert (S1 : cen_rest kernel_lanczos c h e k <= sum_rdom N (cen_rest kernel_lanczos c h e))
      by (apply sum_rdom_ge_one; assumption).
    rewrite cen_rest_at in S1 by (try apply Rabs_def1; lra).
    assert (6 <= kernel_lanczos (pt h e k)).
    { apply kernel_lanczos_ge_6. split; [apply Rabs_pos_lt; exact Z0|apply Rabs_le; lra]. }
    unfold c in *. lra. }
  (* the centre tap is [0]: the lattice is [h Z] *)
  assert (Hpj : forall j, pt h e (k + j) = IZR j * h).
  { intros j. rewrite pt_add, Z0. ring. }
  assert (C0 : cen_rest kernel_lanczos c h e k = 1).
  { rewrite cen_rest_at_0 by exact Z0. apply kernel_lanczos_0. }
  destruct (Rle_lt_dec h (1 / 2)) as [Hs|Hs].
  - assert (Hk1 : (0 <= k + 1 < Z.of_nat N)%Z).
    { split; [lia|]. apply (pt_lt_iff h e Hh). rewrite Hpj. unfold pt at 1. lra. }
    assert (Hk2 : (0 <= k + -1 < Z.of_nat N)%Z).
    { split; [|lia]. assert (pt h e 0 < pt h e (k + -1)).
      { rewrite Hpj, pt_0. lra. }
      apply (pt_lt_iff h e Hh) in H. lia. }
    pose proof (sum_rdom_ge_three N (cen_rest kernel_lanczos c h e) k (k + 1) (k + -1)
      Hk Hk1 Hk2 ltac:(lia) ltac:(lia) ltac:(lia) Rnn) as S.
    rewrite C0 in S.
    rewrite !cen_rest_at in S by (rewrite Hpj; try apply Rabs_def1; lra).
    rewrite !Hpj in S.
    assert (6 <= kernel_lanczos (IZR 1 * h)).
    { apply kernel_lanczos_ge_6. rewrite Rmult_1_l, Rabs_right; lra. }
    assert (6 <= kernel_lanczos (IZR (-1) * h)).
    { apply kernel_lanczos_ge_6. rewrite Rabs_left; lra. }
    unfold c in *. lra.
  - destruct (Req_dec h 1) as [H1|H1].
    + (* [h = 1]: the lobe taps sit on integers, where the kernel is [0] *)
      assert (Hm1 : lattice_m h = 1%Z).
      { unfold lattice_m. apply Rceil_unique. rewrite H1. split; unfold Rdiv; lra. }
      assert (Er0 : sum_rdom N (exc_r kernel_lanczos h e) <= 0).
      { apply exc_r_bound; [exact Hh|lra|]. intros j _ Hj.
        apply Kneg_le; [lra|].
        rewrite Hm1 in Hj.
        replace (pt h e j) with 1 by lra. rewrite kernel_lanczos_1. lra. }
      assert (El0 : sum_rdom N (exc_l kernel_lanczos h e) <= 0).
      { apply exc_l_bound; [exact Hh|lra|]. intros j _ Hj.
        apply Kneg_le; [lra|].
        rewrite Hm1 in Hj. replace (pt h e j) with (-1) by lra.
        assert (E1 : kernel_lanczos (-1) = 0)
          by exact (eq_trans (kernel_lanczos_even 1) kernel_lanczos_1).
        lra. }
      assert (S1 : cen_rest kernel_lanczos c h e k <= sum_rdom N (cen_rest kernel_lanczos c h e))
        by (apply sum_rdom_ge_one; assumption).
      lra.
    + (* [1/2 < h < 1]: the only lobe taps without a partner are [+-2h] *)
      assert (Hlt : h < 1) by lra.
      assert (Hk1 : (0 <= k + 1 < Z.of_nat N)%Z).
      { split; [lia|]. apply (pt_lt_iff h e Hh). rewrite Hpj. unfold pt at 1. lra. }
      assert (Hk2 : (0 <= k + -1 < Z.of_nat N)%Z).
      { split; [|lia]. assert (pt h e 0 < pt h e (k + -1)).
        { rewrite Hpj, pt_0. lra. }
        apply (pt_lt_iff h e Hh) in H. lia. }
      pose proof (sum_rdom_ge_three N (cen_rest kernel_lanczos c h e) k (k + 1) (k + -1)
        Hk Hk1 Hk2 ltac:(lia) ltac:(lia) ltac:(lia) Rnn) as S.
      rewrite C0 in S.
      rewrite !cen_rest_at in S by (rewrite Hpj; try apply Rabs_def1; lra).
      rewrite !Hpj in S.
      replace (IZR (-1) * h) with (- h) in S by ring.
      rewrite Rmult_1_l, kernel_lanczos_even in S.
      assert (Hm2 : lattice_m h = 2%Z).
      { unfold lattice_m. apply Rceil_unique.
        split; [apply (Rmult_lt_reg_r h); [lra|]; replace (1 / h * h) with 1 by (field; lra); lra|].
        apply (Rmult_le_reg_r h); [lra|]. replace (1 / h * h) with 1 by (field; lra). lra. }
      assert (HK2 : Kneg kernel_lanczos (2 * h) <= 71 / 100 * kernel_lanczos h).
      { apply Kneg_le.
        - apply Rmult_le_pos; [lra|]. apply kernel_lanczos_center. rewrite Rabs_right; lra.
        - apply kernel_lanczos_double_bound. lra. }
      assert (HK0 : 0 <= 71 / 100 * kernel_lanczos h).
      { apply Rmult_le_pos; [lra|]. apply kernel_lanczos_center. rewrite Rabs_right; lra. }
      assert (Er2 : sum_rdom N (exc_r kernel_lanczos h e) <= 71 / 100 * kernel_lanczos h).
      { apply exc_r_bound; [exact Hh|exact HK0|]. intros j _ Hj.
        rewrite Hm2 in Hj. replace j with (k + (j - k))%Z in Hj by ring.
        rewrite Hpj in Hj.
        assert (Hj2 : (j - k = 2)%Z).
        { assert (1 < IZR (j - k) < 3) by (split; apply (Rmult_lt_reg_r h); lra).
          assert (1 < j - k < 3)%Z by (split; apply lt_IZR; lra). lia. }
        replace j with (k + 2)%Z by lia. rewrite Hpj. exact HK2. }
      assert (El2 : sum_rdom N (exc_l kernel_lanczos h e) <= 71 / 100 * kernel_lanczos h).
      { apply exc_l_bound; [exact Hh|exact HK0|]. intros j _ Hj.
        rewrite Hm2 in Hj. replace j with (k + (j - k))%Z in Hj by ring.
        rewrite Hpj in Hj.
        assert (Hj2 : (j - k = -2)%Z).
        { assert (-3 < IZR (j - k) < -1) by (split; apply (Rmult_lt_reg_r h); lra).
          assert (-3 < j - k < -1)%Z by (split; apply lt_IZR; lra). lia. }
        replace j with (k + -2)%Z by lia. rewrite Hpj.
        replace (IZR (-2) * h) with (- (2 * h)) by ring.
        rewrite (Kneg_even kernel_lanczos kernel_lanczos_even). exact HK2. }
      unfold c in *. lra.
Qed.

(** ** The kernel sum of one output pixel as a lattice sum *)

Lemma kernel_scaling_range (g : Resize) :
  upsample g = true \/ 0 < scale_factor g <= 1 -> 0 < kernel_scaling g <= 1.
Proof.
  unfold kernel_scaling. intros [H|H]; [rewrite H; lra|]. destruct (upsample g); lra.
Qed.

Lemma unnormalized_kernel_pt (g : Resize) (x k : Z) :
  unnormalized_kernel g x k =
  kernel (info g) (pt (kernel_scaling g) ((IZR (begin g x) - source g x) * kernel_scaling g) k).
Proof. unfold unnormalized_kernel, pt. f_equal. ring. Qed.

(** [begin] puts the first tap at most one step past [-radius]. *)
Lemma begin_offset (g : Resize) (x : Z) :
  0 < kernel_scaling g ->
  - (IZR (taps (info g)) / 2) <= (IZR (begin g x) - source g x) * kernel_scaling g
    < kernel_scaling g - IZR (taps (info g)) / 2.
Proof.
  intros Hh. unfold begin.
  destruct (Rceil_spec (source g x - kernel_radius g)) as [H1 H2].
  set (b := IZR (Rceil (source g x - kernel_radius g))) in *.
  unfold kernel_radius in *.
  set (n := IZR (taps (info g))) in *. set (h := kernel_scaling g) in *.
  set (s := source g x) in *.
  assert (Hr : 1 / 2 * n / h * h = n / 2) by (field; lra).
  split.
  - assert (0 <= (b - s + 1 / 2 * n / h) * h) by (apply Rmult_le_pos; lra).
    replace ((b - s) * h) with ((b - s + 1 / 2 * n / h) * h - 1 / 2 * n / h * h) by ring.
    lra.
  - assert ((b - s + 1 / 2 * n / h) * h < 1 * h) by (apply Rmult_lt_compat_r; lra).
    replace ((b - s) * h) with ((b - s + 1 / 2 * n / h) * h - 1 / 2 * n / h * h) by ring.
    lra.
Qed.

(** [kernel_taps] steps of [kernel_scaling] cover the kernel's width. *)
Lemma kernel_taps_cover (g : Resize) :
  0 < kernel_scaling g <= 1 ->
  IZR (taps (info g)) <= IZR (Z.of_nat (Z.to_nat (kernel_taps g))) * kernel_scaling g /\
  (1 <= Z.of_nat (Z.to_nat (kernel_taps g)))%Z.
Proof.
  intros Hh. unfold kernel_taps.
  set (n := IZR (taps (info g))). set (h := kernel_scaling g) in *.
  assert (Hn : 1 <= n) by (unfold n, info; destruct (interpolation_type g); simpl; lra).
  destruct (Rceil_spec (n / h)) as [_ H2].
  assert (Hnh : n <= n / h).
  { apply (Rmult_le_reg_r h); [lra|]. replace (n / h * h) with n by (field; lra).
    assert (0 <= n * (1 - h)) by (apply Rmult_le_pos; lra). lra. }
  assert (Hk : (1 <= Rceil (n / h))%Z) by (apply le_IZR; lra).
  rewrite Z2Nat.id by lia. split; [|exact Hk].
  apply (Rmult_le_compat_r h) in H2; [|lra].
  replace (n / h * h) with n in H2 by (field; lra). exact H2.
Qed.

(** With [kernel_scaling] in [(0, 1]] every kernel has positive sum. *)
Lemma kernel_sum_pos (g : Resize) (x : Z) :
  upsample g = true \/ 0 < scale_factor g <= 1 -> 0 < kernel_sum g x.
Proof.
  intros Hc. pose proof (kernel_scaling_range g Hc) as Hh.
  pose proof (begin_offset g x (proj1 Hh)) as He.
  pose proof (kernel_taps_cover g Hh) as [HN HN1].
  unfold kernel_sum, sum_taps.
  set (h := kernel_scaling g) in *.
  set (e := (IZR (begin g x) - source g x) * h) in *.
  set (N := Z.to_nat (kernel_taps g)) in *.
  rewrite (sum_rdom_ext N _ (fun k => kernel (info g) (pt h e k)))
    by (intros k _; apply unnormalized_kernel_pt).
  unfold info in *; destruct (interpolation_type g); simpl in *.
  - (* box: the first tap is within [1/2] of the source *)
    apply Rlt_le_trans with (kernel_box (pt h e 0)).
    + rewrite pt_0, kernel_box_in by (apply Rabs_le_between; lra). lra.
    + apply (sum_rdom_ge_one N (fun k => kernel_box (pt h e k)) 0); [lia|]. intros k _.
      unfold kernel_box. destruct (Rle_dec _ _); lra.
  - (* linear: the first tap, or the second one when the first sits at [-1] *)
    assert (Hpos : forall k, (0 <= k < Z.of_nat N)%Z -> 0 <= kernel_linear (pt h e k)).
    { intros k _. unfold kernel_linear. destruct (Rlt_dec _ 1); lra. }
    destruct (Req_dec e (-1)) as [E|E].
    + assert (HN2 : (2 <= Z.of_nat N)%Z).
      { apply le_IZR. apply (Rmult_le_reg_r h); [lra|].
        assert (1 * h <= 1) by lra. lra. }
      apply Rlt_le_trans with (kernel_linear (pt h e 1)).
      * unfold kernel_linear, pt. rewrite E.
        assert (Rabs (-1 + IZR 1 * h) < 1) by (apply Rabs_def1; simpl; lra).
        destruct (Rlt_dec _ 1); lra.
      * apply (sum_rdom_ge_one N (fun k => kernel_linear (pt h e k)) 1); [lia|exact Hpos].
    + apply Rlt_le_trans with (kernel_linear (pt h e 0)).
      * unfold kernel_linear. rewrite pt_0.
        rewrite Rabs_left by lra.
        destruct (Rlt_dec _ 1); lra.
      * apply (sum_rdom_ge_one N (fun k => kernel_linear (pt h e k)) 0); [lia|exact Hpos].
  - (* cubic *)
    apply kernel_cubic_lattice_pos; lra.
  - (* lanczos *)
    apply kernel_lanczos_lattice_pos; lra.
Qed.

(** ** C6: the kernel sum is positive *)

(** C6 (amended): when [upsample] is set, or [0 < scale_factor <= 1], the
    unnormalised kernel sum of every output coordinate is positive (hence
    non-zero) for all four kernels, whatever the source coordinate is.  The
    argument is not that the offsets stay in [[-radius, radius]] (with
    [kernel_taps = ceil(taps / kernel_scaling)] taps from [begin] the last
    ones pass [radius]) but that [kernel_scaling] lies in [(0, 1]]: the taps
    then sample the kernel at steps of at most [1] across its whole support. *)
Theorem kernel_sum_positive (g : Resize) (x : Z) :
  upsample g = true \/ 0 < scale_factor g <= 1 -> 0 < kernel_sum g x.
Proof. intros Hc. exact (kernel_sum_pos g x Hc). Qed.

(** ** C2: the normalised weights sum to one *)

(** C2 (amended): when [upsample] is set, or [0 < scale_factor <= 1], the
    normalised weights [kernel_w] of every output coordinate sum to [1] over
    [[0, kernel_taps)], for all four kernels. *)
Theorem normalized_weights_sum_one (g : Resize) (x : Z) :
  upsample g = true \/ 0 < scale_factor g <= 1 ->
  sum_taps (kernel_taps g) (kernel_w g x) = 1.
Proof.
  intros Hc. pose proof (kernel_sum_pos g x Hc) as Hs.
  unfold sum_taps, kernel_w.
  rewrite (sum_rdom_ext _ _ (fun k => / kernel_sum g x * unnormalized_kernel g x k))
    by (intros k _; unfold Rdiv; ring).
  rewrite sum_rdom_scal. unfold kernel_sum, sum_taps in *. field. lra.
Qed.

(** ** Instances of the hypotheses *)

Lemma clamped_reads_nearest_in_range_witness :
  clamped checker2x2 (-5) 7 0 = data checker2x2 0 1 0.
Proof.
  assert (Hx : (0 < x_extent checker2x2)%Z) by reflexivity.
  assert (Hy : (0 < y_extent checker2x2)%Z) by reflexivity.
  destruct (clamped_reads_nearest_in_range checker2x2 (-5) 7 0 Hx Hy) as [E _].
  exact E.
Defined.

Lemma output_identity_scale_witness :
  output {| interpolation_type := Cubic; upsample := true; scale_factor := 1 |}
         checker2x2 0 1 0 = data checker2x2 0 1 0.
Proof.
  apply output_identity_scale; simpl; [reflexivity|lia|lia|lra].
Defined.

Lemma output_channel_independent_witness :
  output {| interpolation_type := Lanczos; upsample := false; scale_factor := 1/2 |}
         checker2x2 3 1 0 =
  output {| interpolation_type := Lanczos; upsample := false; scale_factor := 1/2 |}
         {| x_min := 0; x_extent := 2; y_min := 0; y_extent := 2;
            data := fun i j ch => if (ch =? 0)%Z then data checker2x2 i j ch else 7 |}
         3 1 0.
Proof.
  apply output_channel_independent; simpl; reflexivity.
Defined.

Lemma box_upscale_checker_witness :
  output {| interpolation_type := Box; upsample := true; scale_factor := 2 |}
         checker2x2 3 1 0 = data checker2x2 1 0 0.
Proof. apply (box_upscale_checker true 3 1); lia. Defined.

Lemma kernel_sum_positive_witness :
  0 < kernel_sum {| interpolation_type := Lanczos; upsample := false; scale_factor := 1/2 |} 0.
Proof. apply kernel_sum_positive. simpl. right. lra. Defined.

Lemma normalized_weights_sum_one_witness :
  sum_taps (kernel_taps {| interpolation_type := Cubic; upsample := true; scale_factor := 3 |})
           (kernel_w {| interpolation_type := Cubic; upsample := true; scale_factor := 3 |} 5) = 1.
Proof. apply normalized_weights_sum_one. simpl. left. reflexivity. Defined.

(** ** Further properties of the kernels *)

Lemma kernel_info_even (it : InterpolationType) (t : R) :
  kernel (kernel_info it) (- t) = kernel (kernel_info it) t.
Proof.
  destruct it; simpl.
  - unfold kernel_box. rewrite Rabs_Ropp. reflexivity.
  - unfold kernel_linear. rewrite Rabs_Ropp. reflexivity.
  - apply kernel_cubic_even.
  - apply kernel_lanczos_even.
Qed.

(** Every kernel but the box vanishes from [|t| = taps/2] on. *)
Lemma kernel_info_zero_beyond (it : InterpolationType) (t : R) :
  it <> Box -> IZR (taps (kernel_info it)) / 2 <= Rabs t -> kernel (kernel_info it) t = 0.
Proof.
  intros Hb H. destruct it; simpl in *.
  - contradiction.
  - unfold kernel_linear. destruct (Rlt_dec (Rabs t) 1); lra.
  - apply kernel_cubic_out. lra.
  - apply kernel_lanczos_outside. lra.
Qed.

Lemma kernel_info_zero_past (it : InterpolationType) (t : R) :
  IZR (taps (kernel_info it)) / 2 < Rabs t -> kernel (kernel_info it) t = 0.
Proof.
  intros H. destruct it eqn:Hi.
  - simpl in *. unfold kernel_box. destruct (Rle_dec (Rabs t) (1/2)); lra.
  - apply kernel_info_zero_beyond; [discriminate | lra].
  - apply kernel_info_zero_beyond; [discriminate | lra].
  - apply kernel_info_zero_beyond; [discriminate | lra].
Qed.

(** X1: all four kernels are even. *)
Theorem kernels_even (it : InterpolationType) (t : R) :
  kernel (kernel_info it) (- t) = kernel (kernel_info it) t.
Proof. apply kernel_info_even. Qed.

(** X2: each kernel vanishes strictly beyond half its tap count
    ([1/2], [1], [2], [3]); every kernel but the box vanishes already at
    [|t| = taps/2], and the box has the value [1] there. *)
Theorem kernels_support (it : InterpolationType) (t : R) :
  (IZR (taps (kernel_info it)) / 2 < Rabs t -> kernel (kernel_info it) t = 0) /\
  (it <> Box -> IZR (taps (kernel_info it)) / 2 <= Rabs t -> kernel (kernel_info it) t = 0) /\
  kernel (kernel_info Box) (1 / 2) = 1.
Proof.
  split; [apply kernel_info_zero_past|]. split; [apply kernel_info_zero_beyond|].
  simpl. apply kernel_box_in. rewrite Rabs_right; lra.
Qed.

(** X3: every kernel interpolates: it is [1] at [0] and [0] at every
    non-zero integer. *)
Theorem kernels_interpolating (it : InterpolationType) (j : Z) :
  kernel (kernel_info it) (IZR j) = if (j =? 0)%Z then 1 else 0.
Proof. apply kernel_at_integer. Qed.

(** X4: the cubic kernel takes its values in [[-2/27, 1]]; both ends are
    attained, at [0] and at [|t| = 4/3]. *)
Theorem kernel_cubic_range (t : R) :
  - (2 / 27) <= kernel_cubic t <= 1 /\ kernel_cubic 0 = 1 /\
  kernel_cubic (4 / 3) = - (2 / 27) /\ kernel_cubic (- (4 / 3)) = - (2 / 27).
Proof.
  assert (E : kernel_cubic (4 / 3) = - (2 / 27)).
  { replace (4 / 3) with (1 + 1 / 3) by field. rewrite kernel_cubic_lobe by lra. field. }
  split; [|split; [|split; [exact E | rewrite kernel_cubic_even; exact E]]].
  - rewrite <- kernel_cubic_abs. pose proof (Rabs_pos t) as Hp.
    set (u := Rabs t) in *.
    destruct (Rlt_dec u 1) as [H1|H1].
    + rewrite kernel_cubic_near by lra. split.
      * pose proof (kernel_cubic_center u) as C.
        rewrite kernel_cubic_near in C by lra.
        assert (0 <= 3 / 2 * u ^ 3 + -5 / 2 * u ^ 2 + 0 * u + 1)
          by (apply C; rewrite Rabs_right; lra). lra.
      * assert (0 <= u ^ 2 * (5 / 2 - 3 / 2 * u))
          by (apply Rmult_le_pos; [apply pow2_ge_0 | lra]). nra.
    + destruct (Rlt_dec u 2) as [H2|H2].
      * split; [apply kernel_cubic_exc; rewrite Rabs_right; lra|].
        replace u with (1 + (u - 1)) by ring. rewrite kernel_cubic_lobe by lra.
        assert (0 <= (u - 1) * (1 - (u - 1)) ^ 2)
          by (apply Rmult_le_pos; [lra | apply pow2_ge_0]). nra.
      * rewrite kernel_cubic_out by (rewrite Rabs_right; lra). lra.
  - unfold kernel_cubic; cbv zeta. rewrite Rabs_R0.
    destruct (Rlt_dec 0 1); [field | lra].
Qed.

(** X5: the Lanczos kernel is not continuous at [0]: its value there is
    [1], but every [t] with [0 < |t| <= 1/2] weighs at least [6]. *)
Theorem kernel_lanczos_discontinuous_at_0 :
  kernel_lanczos 0 = 1 /\
  (forall t, 0 < Rabs t <= 1 / 2 -> 6 <= kernel_lanczos t) /\
  ~ continuity_pt kernel_lanczos 0.
Proof.
  split; [exact kernel_lanczos_0|]. split; [exact kernel_lanczos_ge_6|].
  intros Hc. destruct (Hc 1 Rlt_0_1) as [d [Hd Hf]].
  set (t := Rmin (d / 2) (1 / 2)).
  assert (Ht : 0 < t <= 1 / 2 /\ t < d).
  { unfold t, Rmin. destruct (Rle_dec (d / 2) (1 / 2)); lra. }
  specialize (Hf t). simpl in Hf. unfold R_dist in Hf.
  rewrite Rminus_0_r, kernel_lanczos_0 in Hf.
  rewrite (Rabs_right t) in Hf by lra.
  assert (H6 : 6 <= kernel_lanczos t)
    by (apply kernel_lanczos_ge_6; rewrite Rabs_right; lra).
  assert (Hlt : Rabs (kernel_lanczos t - 1) < 1).
  { apply Hf. split; [|lra]. split; [exact I | lra]. }
  rewrite Rabs_right in Hlt by lra. lra.
Qed.

(** ** The tap window of one output pixel *)

Lemma Rceil_plus_IZR (r : R) (d : Z) : Rceil (r + IZR d) = (Rceil r + d)%Z.
Proof.
  apply Rceil_unique. destruct (Rceil_spec r). rewrite plus_IZR. lra.
Qed.

Lemma Rceil_le (r s : R) : r <= s -> (Rceil r <= Rceil s)%Z.
Proof.
  intros H. destruct (Rceil_spec r) as [A _]. destruct (Rceil_spec s) as [_ B].
  assert (IZR (Rceil r) - 1 < IZR (Rceil s)) by lra.
  assert (Rceil r - 1 < Rceil s)%Z by (apply lt_IZR; rewrite minus_IZR; lra). lia.
Qed.

(** X6: the window [[begin, begin + kernel_taps)] holds every input index
    the kernel reaches: an index [j] outside it lies at scaled distance at
    least [taps/2] from the source coordinate, so every kernel but the box
    gives it weight [0]. *)
Theorem window_covers_support (g : Resize) (x j : Z) :
  0 < kernel_scaling g ->
  (j < begin g x \/ begin g x + kernel_taps g <= j)%Z ->
  IZR (taps (info g)) / 2 <= Rabs ((IZR j - source g x) * kernel_scaling g) /\
  (interpolation_type g <> Box ->
   kernel (info g) ((IZR j - source g x) * kernel_scaling g) = 0).
Proof.
  intros Hh Hj.
  assert (Hd : IZR (taps (info g)) / 2 <= Rabs ((IZR j - source g x) * kernel_scaling g)).
  { unfold begin, kernel_taps in Hj.
    destruct (Rceil_spec (source g x - kernel_radius g)) as [B1 B2].
    destruct (Rceil_spec (IZR (taps (info g)) / kernel_scaling g)) as [_ N2].
    unfold kernel_radius in *.
    set (n := IZR (taps (info g))) in *. set (h := kernel_scaling g) in *.
    set (s := source g x) in *.
    assert (Hr : 1 / 2 * n / h * h = n / 2) by (field; lra).
    assert (Hn : n / h * h = n) by (field; lra).
    destruct Hj as [Hj|Hj].
    - assert (IZR j <= IZR (Rceil (s - 1 / 2 * n / h)) - 1)
        by (rewrite <- minus_IZR; apply IZR_le; lia).
      assert ((s - 1 / 2 * n / h - IZR j) * h > 0) by (apply Rmult_gt_0_compat; lra).
      assert (1 <= n) by (unfold n, info; destruct (interpolation_type g); simpl; lra).
      replace ((IZR j - s) * h) with (- ((s - 1 / 2 * n / h - IZR j) * h) - 1 / 2 * n / h * h)
        by ring.
      rewrite Hr, Rabs_left by lra. lra.
    - apply IZR_le in Hj. rewrite plus_IZR in Hj.
      assert (E : 1 / 2 * n / h = n / h - 1 / 2 * n / h) by (field; lra).
      assert (1 <= n) by (unfold n, info; destruct (interpolation_type g); simpl; lra).
      assert (0 <= (IZR j - s - 1 / 2 * n / h) * h) by (apply Rmult_le_pos; lra).
      replace ((IZR j - s) * h) with ((IZR j - s - 1 / 2 * n / h) * h + 1 / 2 * n / h * h)
        by ring.
      rewrite Hr, Rabs_right by lra. lra. }
  split; [exact Hd|]. intros Hb. unfold info in *.
  apply kernel_info_zero_beyond; assumption.
Qed.

(** X7: [begin] never decreases along the output axis when
    [scale_factor > 0]. *)
Theorem begin_monotone (g : Resize) (x x' : Z) :
  0 < scale_factor g -> (x <= x')%Z -> (begin g x <= begin g x')%Z.
Proof.
  intros Hs Hx. unfold begin. apply Rceil_le. unfold source.
  apply IZR_le in Hx.
  assert ((IZR x + 1 / 2) / scale_factor g <= (IZR x' + 1 / 2) / scale_factor g).
  { unfold Rdiv. apply Rmult_le_compat_r; [apply Rlt_le, Rinv_0_lt_compat; lra | lra]. }
  lra.
Qed.

(** X8: shifting the output coordinate by [m] with [m / scale_factor] an
    integer [d] shifts [begin] by [d] and leaves the weight table as it is. *)
Theorem weight_table_shift (g : Resize) (x m d : Z) :
  0 < scale_factor g -> IZR m / scale_factor g = IZR d ->
  begin g (x + m) = (begin g x + d)%Z /\
  (forall k, unnormalized_kernel g (x + m) k = unnormalized_kernel g x k) /\
  (forall k, kernel_w g (x + m) k = kernel_w g x k).
Proof.
  intros Hs Hd.
  assert (Hsrc : source g (x + m) = source g x + IZR d).
  { unfold source. rewrite plus_IZR, <- Hd. field. lra. }
  assert (Hb : begin g (x + m) = (begin g x + d)%Z).
  { unfold begin. rewrite Hsrc.
    replace (source g x + IZR d - kernel_radius g)
      with (source g x - kernel_radius g + IZR d) by ring.
    apply Rceil_plus_IZR. }
  assert (Hu : forall k, unnormalized_kernel g (x + m) k = unnormalized_kernel g x k).
  { intros k. unfold unnormalized_kernel. rewrite Hb, Hsrc, plus_IZR. f_equal. ring. }
  split; [exact Hb | split; [exact Hu|]].
  intros k. unfold kernel_w, kernel_sum, sum_taps. rewrite Hu. f_equal.
  apply sum_rdom_ext. intros r _. apply Hu.
Qed.

(** ** Weighted sums with the tables of a consistent configuration *)

Lemma kernel_w_sum (g : Resize) (x : Z) :
  upsample g = true \/ 0 < scale_factor g <= 1 ->
  sum_taps (kernel_taps g) (kernel_w g x) = 1.
Proof.
  intros Hc. pose proof (kernel_sum_pos g x Hc) as Hs.
  unfold sum_taps, kernel_w.
  rewrite (sum_rdom_ext _ _ (fun k => / kernel_sum g x * unnormalized_kernel g x k))
    by (intros k _; unfold Rdiv; ring).
  rewrite sum_rdom_scal. unfold kernel_sum, sum_taps in *. field. lra.
Qed.

Lemma weighted_const (g : Resize) (x : Z) (F : Z -> R) (v : R) :
  upsample g = true \/ 0 < scale_factor g <= 1 ->
  (forall r, F r = v) ->
  sum_taps (kernel_taps g) (fun r => kernel_w g x r * F r) = v.
Proof.
  intros Hc HF. unfold sum_taps.
  rewrite (sum_rdom_ext _ _ (fun r => v * kernel_w g x r)) by (intros r _; rewrite HF; ring).
  rewrite sum_rdom_scal. pose proof (kernel_w_sum g x Hc) as S. unfold sum_taps in S.
  rewrite S. ring.
Qed.

Lemma kernel_w_nonneg (g : Resize) (x k : Z) :
  upsample g = true \/ 0 < scale_factor g <= 1 ->
  (forall t, 0 <= kernel (info g) t) -> 0 <= kernel_w g x k.
Proof.
  intros Hc Hk. pose proof (kernel_sum_pos g x Hc). unfold kernel_w, Rdiv.
  apply Rmult_le_pos; [apply Hk | apply Rlt_le, Rinv_0_lt_compat; lra].
Qed.

Lemma weighted_mono (g : Resize) (x : Z) (F G : Z -> R) :
  upsample g = true \/ 0 < scale_factor g <= 1 ->
  (forall t, 0 <= kernel (info g) t) ->
  (forall r, F r <= G r) ->
  sum_taps (kernel_taps g) (fun r => kernel_w g x r * F r) <=
  sum_taps (kernel_taps g) (fun r => kernel_w g x r * G r).
Proof.
  intros Hc Hk HFG. unfold sum_taps. apply sum_rdom_le. intros r _.
  apply Rmult_le_compat_l; [apply kernel_w_nonneg; assumption | apply HFG].
Qed.

Lemma box_linear_nonneg (g : Resize) :
  interpolation_type g = Box \/ interpolation_type g = Linear ->
  forall t, 0 <= kernel (info g) t.
Proof.
  intros Hi t. unfold info. destruct Hi as [-> | ->]; simpl.
  - unfold kernel_box. destruct (Rle_dec _ _); lra.
  - unfold kernel_linear. destruct (Rlt_dec _ _); lra.
Qed.

Lemma clampR_mono (u v : R) : u <= v -> clampR u 0 1 <= clampR v 0 1.
Proof.
  intros H. unfold clampR. apply Rle_max_compat_r, Rle_min_compat_r, H.
Qed.

Lemma clamped_const (input : Buffer) (c : Z) (v : R) :
  (forall i j, data input i j c = v) -> forall i j, clamped input i j c = v.
Proof. intros H i j. unfold clamped. apply H. Qed.

(** Both orderings, as functions of the clamped input only. *)
Lemma output_unfold (g : Resize) (input : Buffer) (x y c : Z) :
  output g input x y c =
  if upsample g then
    clampR (sum_taps (kernel_taps g) (fun r => kernel_w g y r *
      sum_taps (kernel_taps g) (fun r' => kernel_w g x r' *
        clamped input (r' + begin g x) (r + begin g y) c))) 0 1
  else
    clampR (sum_taps (kernel_taps g) (fun r => kernel_w g x r *
      sum_taps (kernel_taps g) (fun r' => kernel_w g y r' *
        clamped input (r + begin g x) (r' + begin g y) c))) 0 1.
Proof. reflexivity. Qed.

(** X9: in a consistent configuration ([upsample], or
    [0 < scale_factor <= 1]) a channel that is constant [v] in [[0, 1]] is
    reproduced exactly, for every kernel. *)
Theorem output_constant_input (g : Resize) (input : Buffer) (c : Z) (v : R) :
  upsample g = true \/ 0 < scale_factor g <= 1 ->
  0 <= v <= 1 ->
  (forall i j, data input i j c = v) ->
  forall x y, output g input x y c = v.
Proof.
  intros Hc Hv Hin x y. pose proof (clamped_const input c v Hin) as Hcl.
  rewrite output_unfold. rewrite <- (clampR_id v Hv).
  case (upsample g); f_equal;
    (apply weighted_const; [exact Hc|]); intros r;
    (apply weighted_const; [exact Hc|]); intros r'; apply Hcl.
Qed.

Lemma weighted_between (g : Resize) (x : Z) (F : Z -> R) (lo hi : R) :
  upsample g = true \/ 0 < scale_factor g <= 1 ->
  (forall t, 0 <= kernel (info g) t) ->
  (forall r, lo <= F r <= hi) ->
  lo <= sum_taps (kernel_taps g) (fun r => kernel_w g x r * F r) <= hi.
Proof.
  intros Hc Hk HF. split.
  - rewrite <- (weighted_const g x (fun _ => lo) lo Hc) by reflexivity.
    apply weighted_mono; [exact Hc | exact Hk | apply HF].
  - rewrite <- (weighted_const g x (fun _ => hi) hi Hc) by reflexivity.
    apply weighted_mono; [exact Hc | exact Hk | apply HF].
Qed.

Lemma weighted_lin (n : Z) (w F F1 F2 : Z -> R) (a b : R) :
  (forall r, F r = a * F1 r + b * F2 r) ->
  sum_taps n (fun r => w r * F r) =
  a * sum_taps n (fun r => w r * F1 r) + b * sum_taps n (fun r => w r * F2 r).
Proof.
  intros H. unfold sum_taps. rewrite <- !sum_rdom_scal, <- sum_rdom_plus.
  apply sum_rdom_ext. intros r _. rewrite H. ring.
Qed.

Lemma clamped_lincomb (a b : R) (in1 in2 : Buffer) (i j c : Z) :
  x_min in1 = x_min in2 -> x_extent in1 = x_extent in2 ->
  y_min in1 = y_min in2 -> y_extent in1 = y_extent in2 ->
  clamped (buffer_lincomb a in1 b in2) i j c = a * clamped in1 i j c + b * clamped in2 i j c.
Proof.
  intros E1 E2 E3 E4. unfold clamped, buffer_lincomb; simpl.
  rewrite <- E1, <- E2, <- E3, <- E4. reflexivity.
Qed.

(** X10: with the box or the linear kernel (non-negative weights) in a
    consistent configuration, the output of a channel whose samples lie in
    [[lo, hi]] (inside [[0, 1]]) lies in [[lo, hi]] too: no overshoot. *)
Theorem output_within_input_range (g : Resize) (input : Buffer) (c : Z) (lo hi : R) :
  upsample g = true \/ 0 < scale_factor g <= 1 ->
  interpolation_type g = Box \/ interpolation_type g = Linear ->
  0 <= lo -> hi <= 1 ->
  (forall i j, lo <= data input i j c <= hi) ->
  forall x y, lo <= output g input x y c <= hi.
Proof.
  intros Hc Hi Hlo Hhi Hin x y. pose proof (box_linear_nonneg g Hi) as Hk.
  assert (Hcl : forall i j, lo <= clamped input i j c <= hi) by (intros; apply Hin).
  rewrite output_unfold.
  assert (B : forall v, lo <= v <= hi -> lo <= clampR v 0 1 <= hi)
    by (intros v Hv; rewrite clampR_id; lra).
  case (upsample g); apply B;
    (apply weighted_between; [exact Hc | exact Hk|]); intros r;
    (apply weighted_between; [exact Hc | exact Hk|]); intros r'; apply Hcl.
Qed.

(** X11: with the box or the linear kernel in a consistent configuration
    the output is monotone in the input: raising samples of channel [c]
    never lowers an output sample of channel [c]. *)
Theorem output_monotone (g : Resize) (in1 in2 : Buffer) (c : Z) :
  upsample g = true \/ 0 < scale_factor g <= 1 ->
  interpolation_type g = Box \/ interpolation_type g = Linear ->
  x_min in1 = x_min in2 -> x_extent in1 = x_extent in2 ->
  y_min in1 = y_min in2 -> y_extent in1 = y_extent in2 ->
  (forall i j, data in1 i j c <= data in2 i j c) ->
  forall x y, output g in1 x y c <= output g in2 x y c.
Proof.
  intros Hc Hi E1 E2 E3 E4 Hle x y. pose proof (box_linear_nonneg g Hi) as Hk.
  assert (Hcl : forall i j, clamped in1 i j c <= clamped in2 i j c).
  { intros i j. unfold clamped. rewrite E1, E2, E3, E4. apply Hle. }
  rewrite !output_unfold.
  case (upsample g); apply clampR_mono;
    (apply weighted_mono; [exact Hc | exact Hk|]); intros r;
    (apply weighted_mono; [exact Hc | exact Hk|]); intros r'; apply Hcl.
Qed.

(** X12: before the final clamp both resampling orders are linear in the
    input: resizing [a·in1 + b·in2] gives [a] times the resized [in1] plus
    [b] times the resized [in2] (inputs of one shape). *)
Theorem resized_linear (g : Resize) (in1 in2 : Buffer) (a b : R) :
  x_min in1 = x_min in2 -> x_extent in1 = x_extent in2 ->
  y_min in1 = y_min in2 -> y_extent in1 = y_extent in2 ->
  forall x y c,
    up_resized_y g (buffer_lincomb a in1 b in2) x y c =
      a * up_resized_y g in1 x y c + b * up_resized_y g in2 x y c /\
    down_resized_x g (buffer_lincomb a in1 b in2) x y c =
      a * down_resized_x g in1 x y c + b * down_resized_x g in2 x y c.
Proof.
  intros E1 E2 E3 E4 x y c. split.
  - unfold up_resized_y. apply weighted_lin. intros r.
    unfold up_resized_x. apply weighted_lin. intros r'.
    apply clamped_lincomb; assumption.
  - unfold down_resized_x. apply weighted_lin. intros r.
    unfold down_resized_y. apply weighted_lin. intros r'.
    apply clamped_lincomb; assumption.
Qed.

(** X13: an output sample reads the (edge-clamped) input only inside its
    tap windows: two inputs whose clamped samples of channel [c] agree on
    [[begin x, begin x + kernel_taps) × [begin y, begin y + kernel_taps)]
    give the same output at [(x, y, c)]. *)
Theorem output_local (g : Resize) (in1 in2 : Buffer) (x y c : Z) :
  (forall i j, (begin g x <= i < begin g x + kernel_taps g)%Z ->
               (begin g y <= j < begin g y + kernel_taps g)%Z ->
               clamped in1 i j c = clamped in2 i j c) ->
  output g in1 x y c = output g in2 x y c.
Proof.
  intros H. rewrite !output_unfold.
  case (upsample g); f_equal; unfold sum_taps; apply sum_rdom_ext; intros r Hr;
    f_equal; apply sum_rdom_ext; intros r' Hr'; f_equal; apply H; lia.
Qed.

Lemma box_up_table (g : Resize) :
  interpolation_type g = Box -> upsample g = true ->
  kernel_taps g = 1%Z /\ forall x, unnormalized_kernel g x 0 = 1.
Proof.
  intros Hi Hu.
  assert (Hk : kernel_scaling g = 1) by (unfold kernel_scaling; rewrite Hu; reflexivity).
  split.
  - unfold kernel_taps, info. rewrite Hk, Hi. simpl. apply Rceil_unique. lra.
  - intros x. pose proof (begin_offset g x) as He. rewrite Hk in He.
    specialize (He Rlt_0_1). unfold info in He. rewrite Hi in He. simpl in He.
    rewrite unnormalized_kernel_pt, pt_0, Hk. unfold info. rewrite Hi. simpl.
    apply kernel_box_in, Rabs_le_between. lra.
Qed.

(** X14: the box kernel with [upsample] set samples one input pixel per
    output pixel, for every scale factor: output [(x, y, c)] is the clamped
    input at [(begin x, begin y, c)], clamped to [[0, 1]]. *)
Theorem box_upsample_point_sample (g : Resize) (input : Buffer) (x y c : Z) :
  interpolation_type g = Box -> upsample g = true ->
  output g input x y c = clampR (clamped input (begin g x) (begin g y) c) 0 1.
Proof.
  intros Hi Hu. destruct (box_up_table g Hi Hu) as [Ht Hw].
  rewrite output_unfold, Hu. f_equal.
  unfold kernel_w, kernel_sum. rewrite Ht, !sum_taps_1, !Hw, !Z.add_0_l. field.
Qed.

Lemma box_up_begin (g : Resize) (s x : Z) :
  interpolation_type g = Box -> upsample g = true ->
  scale_factor g = IZR s -> (0 < s)%Z -> begin g x = (x / s)%Z.
Proof.
  intros Hi Hu Hs Hs0.
  unfold begin, kernel_radius, source, info, kernel_scaling. rewrite Hi, Hu, Hs. simpl.
  apply Rceil_unique.
  pose proof (Z.div_mod x s ltac:(lia)) as Hx.
  pose proof (Z.mod_pos_bound x s Hs0) as Hr.
  set (q := (x / s)%Z) in *. set (r := (x mod s)%Z) in *.
  assert (HS : 0 < IZR s) by (apply IZR_lt; lia).
  assert (HR : 0 <= IZR r /\ IZR r + 1 <= IZR s).
  { split; [apply IZR_le; lia|]. rewrite <- plus_IZR. apply IZR_le. lia. }
  assert (HX : IZR x = IZR s * IZR q + IZR r) by (rewrite Hx, plus_IZR, mult_IZR; reflexivity).
  assert (E : (IZR x + 1 / 2) / IZR s - 1 / 2 - 1 / 2 * 1 / 1 =
              IZR q - 1 + (IZR r + 1 / 2) / IZR s) by (rewrite HX; field; lra).
  rewrite E. set (w := (IZR r + 1 / 2) / IZR s).
  assert (Hw : w * IZR s = IZR r + 1 / 2) by (unfold w; field; lra).
  assert (0 < w) by (unfold w; apply Rdiv_lt_0_compat; lra).
  assert (w < 1) by nra.
  lra.
Qed.

(** X15: the box kernel with [upsample] set and an integer scale factor
    [s >= 1] is nearest-neighbour replication: output [(x, y, c)] is the
    clamped input at [(x div s, y div s, c)], clamped to [[0, 1]]. *)
Theorem box_integer_upsample_nearest (g : Resize) (input : Buffer) (s x y c : Z) :
  interpolation_type g = Box -> upsample g = true ->
  scale_factor g = IZR s -> (0 < s)%Z ->
  output g input x y c = clampR (clamped input (x / s) (y / s) c) 0 1.
Proof.
  intros Hi Hu Hs Hs0. destruct (box_up_table g Hi Hu) as [Ht Hw].
  rewrite output_unfold, Hu. f_equal.
  unfold kernel_w, kernel_sum. rewrite Ht, !sum_taps_1, !Hw, !Z.add_0_l.
  rewrite !(box_up_begin g s) by assumption. field.
Qed.

(** ** Instances of the hypotheses of the further properties *)

Lemma window_covers_support_witness :
  let g := {| interpolation_type := Lanczos; upsample := false; scale_factor := 1 |} in
  IZR (taps (info g)) / 2 <= Rabs ((IZR (-4) - source g 0) * kernel_scaling g) /\
  (interpolation_type g <> Box ->
   kernel (info g) ((IZR (-4) - source g 0) * kernel_scaling g) = 0).
Proof.
  intros g.
  assert (Hb : begin g 0 = (-3)%Z).
  { unfold begin, source, kernel_radius, kernel_scaling, info; simpl.
    apply Rceil_unique. lra. }
  apply (window_covers_support g 0 (-4)).
  - unfold kernel_scaling; simpl. lra.
  - left. rewrite Hb. lia.
Defined.

Lemma begin_monotone_witness :
  (begin {| interpolation_type := Cubic; upsample := false; scale_factor := 2 |} 3 <=
   begin {| interpolation_type := Cubic; upsample := false; scale_factor := 2 |} 7)%Z.
Proof. apply begin_monotone; simpl; [lra | lia]. Defined.

Lemma weight_table_shift_witness :
  let g := {| interpolation_type := Lanczos; upsample := true; scale_factor := 2 |} in
  begin g (1 + 4) = (begin g 1 + 2)%Z /\
  (forall k, unnormalized_kernel g (1 + 4) k = unnormalized_kernel g 1 k) /\
  (forall k, kernel_w g (1 + 4) k = kernel_w g 1 k).
Proof.
  intros g. apply (weight_table_shift g 1 4 2); simpl; lra.
Defined.

Lemma output_constant_input_witness :
  output {| interpolation_type := Lanczos; upsample := false; scale_factor := 1/2 |}
         {| x_min := 0; x_extent := 3; y_min := 0; y_extent := 3;
            data := fun _ _ _ => 1/2 |} 4 (-2) 0 = 1/2.
Proof.
  apply output_constant_input; simpl; [right; lra | lra | intros; reflexivity].
Defined.

Lemma output_within_input_range_witness :
  0 <= output {| interpolation_type := Linear; upsample := true; scale_factor := 3 |}
              checker2x2 2 5 0 <= 1.
Proof.
  apply output_within_input_range; simpl; [left; reflexivity | right; reflexivity | lra | lra |].
  intros i j. destruct (i =? j)%Z; lra.
Defined.

Lemma output_monotone_witness :
  output {| interpolation_type := Box; upsample := false; scale_factor := 1/2 |}
         checker2x2 1 0 0 <=
  output {| interpolation_type := Box; upsample := false; scale_factor := 1/2 |}
         {| x_min := 0; x_extent := 2; y_min := 0; y_extent := 2;
            data := fun _ _ _ => 1 |} 1 0 0.
Proof.
  apply output_monotone; simpl; try reflexivity; [right; lra | left; reflexivity |].
  intros i j. destruct (i =? j)%Z; lra.
Defined.

Lemma resized_linear_witness :
  let g := {| interpolation_type := Cubic; upsample := true; scale_factor := 3/2 |} in
  let in2 := {| x_min := 0; x_extent := 2; y_min := 0; y_extent := 2;
                data := fun i _ _ => IZR i |} in
  up_resized_y g (buffer_lincomb 2 checker2x2 (-1) in2) 1 1 0 =
    2 * up_resized_y g checker2x2 1 1 0 + -1 * up_resized_y g in2 1 1 0 /\
  down_resized_x g (buffer_lincomb 2 checker2x2 (-1) in2) 1 1 0 =
    2 * down_resized_x g checker2x2 1 1 0 + -1 * down_resized_x g in2 1 1 0.
Proof.
  intros g in2. apply resized_linear; reflexivity.
Defined.

Lemma output_local_witness :
  output {| interpolation_type := Cubic; upsample := true; scale_factor := 2 |}
         checker2x2 1 2 0 =
  output {| interpolation_type := Cubic; upsample := true; scale_factor := 2 |}
         {| x_min := 0; x_extent := 2; y_min := 0; y_extent := 2;
            data := fun i j ch => if (ch =? 0)%Z then data checker2x2 i j ch else 5 |}
         1 2 0.
Proof.
  apply output_local. intros i j _ _. reflexivity.
Defined.

Lemma box_upsample_point_sample_witness :
  let g := {| interpolation_type := Box; upsample := true; scale_factor := 3/2 |} in
  output g checker2x2 2 1 0 = clampR (clamped checker2x2 (begin g 2) (begin g 1) 0) 0 1.
Proof. intros g. apply box_upsample_point_sample; reflexivity. Defined.

Lemma box_integer_upsample_nearest_witness :
  output {| interpolation_type := Box; upsample := true; scale_factor := 3 |}
         checker2x2 5 (-1) 0 = clampR (clamped checker2x2 (5 / 3) (-1 / 3) 0) 0 1.
Proof. apply (box_integer_upsample_nearest _ _ 3); simpl; [reflexivity | reflexivity | reflexivity | lia]. Defined.
